(** * QanYi DAW: playback scheduling, transport and mix state

    A shallow embedding of the JavaScript core of the workstation
    (AudioClip, Track, AudioEngine), of the UI helpers that touch the mix
    and the tempo (TrackList.handleSoloLogic, Timeline.snapTime,
    Toolbar.setBpm) and of two functions of utils/helpers.js, followed by
    the properties of the specification and by further properties of the
    code.

    Numbers.  JavaScript numbers are IEEE-754 doubles.  A finite number is
    held as the rational it denotes ([Q], compared with [==]); NaN is kept
    as a value of its own where the code can receive or store it (the tempo,
    the argument of [setTempo], the result of [snapTime]).  Infinities are
    not represented: the only operation below that could create one from
    finite operands is a division by zero, which [JS.div] maps to NaN.

    Rounding.  The position display, grid snapping and [mapRange] show
    their result at a resolution that the rounding of doubles changes (a
    tick, a grid step, an end point hit exactly), so their arithmetic is
    the one of doubles: every operation is followed by [JS.fl], the
    rounding to the nearest number with a significand of 53 bits, ties to
    the even significand.  The exponent range of doubles is not modelled
    (no overflow past 2^1024, no gradual underflow below 2^-1022), nor is
    the sign of zero; the statements about these functions bound their
    arguments accordingly.  [JS.fl] is compared with the binary64
    arithmetic of Rocq's primitive floats on samples.  The clock arithmetic
    of the transport and of the scheduler is kept exact: there a rounding
    moves a time by one unit in the last place, far below one sample.

    The device clock.  [audioContext.currentTime] is read-only for the
    engine; every operation that reads it takes the value read as its
    argument [now].

    Callbacks.  [onTimeUpdate] and [onPlayStateChange] are nullable function
    fields; the model keeps whether one is registered and the trace of the
    calls made to it. *)

From Stdlib Require Import QArith Qround Qminmax ZArith List String Ascii Bool.
From Stdlib Require Import Lia Lqa Sorted Permutation DecimalString Qabs.
From Stdlib Require Import Qpower.
From Stdlib Require PrimFloat FloatOps Uint63.
Import ListNotations.

Local Open Scope Q_scope.

(** ** JavaScript primitives *)

Module JS.

Inductive number : Type :=
| Fin (q : Q)
| NaN.

Definition lift2 (f : Q -> Q -> Q) (a b : number) : number :=
  match a, b with
  | Fin x, Fin y => Fin (f x y)
  | _, _ => NaN
  end.

(** *** Rounding to a double

    [ilog2 x] is the exponent of [x <> 0]: [2^e <= |x| < 2^(e+1)]. *)
Definition ilog2 (x : Q) : Z :=
  let e := (Z.log2 (Z.abs (Qnum x)) - Z.log2 (Z.pos (Qden x)))%Z in
  if Qle_bool (2 ^ e) (Qabs x) then e else (e - 1)%Z.

(** The integer nearest to [y]; half-way, the even one. *)
Definition nearest_even (y : Q) : Z :=
  let f := Qfloor y in
  match Qcompare (y - inject_Z f) (1 # 2) with
  | Lt => f
  | Gt => (f + 1)%Z
  | Eq => if Z.even f then f else (f + 1)%Z
  end.

(** [fl x] is the double nearest to [x]: [x] is rounded to a whole number
    of units of its last place, [2^(e-52)] for a number of exponent [e].
    [Qred] puts the result in lowest terms. *)
Definition fl (x : Q) : Q :=
  if Qeq_bool x 0 then 0
  else
    let ulp := 2 ^ (ilog2 x - 52) in
    Qred (inject_Z (nearest_even (x / ulp)) * ulp).

(** [Math.max] and [Math.min] return NaN as soon as one argument is NaN. *)
Definition Math_max : number -> number -> number := lift2 Qmax.
Definition Math_min : number -> number -> number := lift2 Qmin.

(** [a + b], [a - b] and [a * b] in double arithmetic. *)
Definition add : number -> number -> number :=
  lift2 (fun x y => fl (x + y)).
Definition sub : number -> number -> number :=
  lift2 (fun x y => fl (x - y)).
Definition mul : number -> number -> number :=
  lift2 (fun x y => fl (x * y)).

(** [a / b]; a zero divisor gives NaN (see the header). *)
Definition div (a b : number) : number :=
  match a, b with
  | Fin x, Fin y => if Qeq_bool y 0 then NaN else Fin (fl (x / y))
  | _, _ => NaN
  end.

(** [Math.round] rounds half-way cases towards plus infinity. *)
Definition round (x : Q) : Z := Qfloor (x + (1 # 2)).

Definition Math_round (a : number) : number :=
  match a with
  | Fin x => Fin (inject_Z (round x))
  | NaN => NaN
  end.

Definition isNaN (a : number) : bool :=
  match a with
  | Fin _ => false
  | NaN => true
  end.

(** [a == b] on numbers: NaN is equal to nothing, itself included. *)
Definition num_eq (a b : number) : bool :=
  match a, b with
  | Fin x, Fin y => Qeq_bool x y
  | _, _ => false
  end.

Definition ltb (a b : Q) : bool := negb (Qle_bool b a).

(** Truncation towards zero, and the remainder operator [a % b], whose
    result takes the sign of the dividend. *)
Definition trunc (x : Q) : Z :=
  if Qle_bool 0 x then Qfloor x else Qceiling x.

Definition rem (a b : Q) : Q := a - b * inject_Z (trunc (a / b)).

(** [x || 0] on a number: zero is the only falsy finite number. *)
Definition or_zero (x : Q) : Q := if Qeq_bool x 0 then 0 else x.

(** [String(n)] for an integer [n] below 10^21 in absolute value, where
    JavaScript prints every digit. *)
Definition String_of_Z (z : Z) : string :=
  NilZero.string_of_int (Z.to_int z).

Fixpoint repeat_char (c : ascii) (n : nat) : string :=
  match n with
  | O => EmptyString
  | S k => String c (repeat_char c k)
  end.

(** [s.padStart(targetLength, c)] for a one-character pad string. *)
Definition padStart (targetLength : nat) (c : ascii) (s : string) : string :=
  (repeat_char c (targetLength - String.length s) ++ s)%string.

(** [Array.prototype.sort(cmp)].  The sort is stable, so for a consistent
    comparator its result is the one of a stable insertion sort: an element
    goes before the first of the elements that followed it for which
    [cmp] is not positive. *)
Fixpoint sort_insert {A : Type} (cmp : A -> A -> Q) (a : A) (l : list A)
  : list A :=
  match l with
  | [] => [a]
  | b :: r =>
      if Qle_bool (cmp a b) 0 then a :: b :: r
      else b :: sort_insert cmp a r
  end.

Fixpoint Array_sort {A : Type} (cmp : A -> A -> Q) (l : list A) : list A :=
  match l with
  | [] => []
  | a :: r => sort_insert cmp a (Array_sort cmp r)
  end.

End JS.

(** ** Decoded audio (Web Audio [AudioBuffer]) *)

Module AudioBuffer.

(** [ref] stands for the identity of the shared, immutable buffer object. *)
Record t : Type := mk {
  ref : nat;
  duration : Q;
  channelData : list Q
}.

End AudioBuffer.

(** ** AudioClip *)

Module AudioClip.

Record Options : Type := mkOptions {
  opt_audioBuffer : option AudioBuffer.t;
  opt_name : option string;
  opt_startTime : option Q;
  opt_offset : option Q;
  opt_duration : option Q
}.

Record t : Type := mk {
  id : string;
  name : string;
  audioBuffer : option AudioBuffer.t;
  trackId : option string;
  startTime : Q;
  offset : Q;
  duration : Q;
  gain : Q;
  waveformData : option (list Q);
  selected : bool
}.

Definition with_trackId (v : option string) (c : t) : t :=
  mk (id c) (name c) (audioBuffer c) v (startTime c) (offset c)
     (duration c) (gain c) (waveformData c) (selected c).

Definition with_startTime (v : Q) (c : t) : t :=
  mk (id c) (name c) (audioBuffer c) (trackId c) v (offset c)
     (duration c) (gain c) (waveformData c) (selected c).

Definition with_duration (v : Q) (c : t) : t :=
  mk (id c) (name c) (audioBuffer c) (trackId c) (startTime c) (offset c)
     v (gain c) (waveformData c) (selected c).

Definition with_selected (v : bool) (c : t) : t :=
  mk (id c) (name c) (audioBuffer c) (trackId c) (startTime c) (offset c)
     (duration c) (gain c) (waveformData c) v.

Definition with_name (v : string) (c : t) : t :=
  mk (id c) v (audioBuffer c) (trackId c) (startTime c) (offset c)
     (duration c) (gain c) (waveformData c) (selected c).

(** [options.x || 0] for an optional numeric option. *)
Definition num_or_zero (o : option Q) : Q :=
  match o with
  | Some x => JS.or_zero x
  | None => 0
  end.

(** [new AudioClip(options)].  [now] is [Date.now()] and [clipCounter] the
    module-level counter, returned incremented. *)
Definition constructor (options : Options) (now : Z) (clipCounter : nat)
  : t * nat :=
  let clipCounter := S clipCounter in
  let buffer := opt_audioBuffer options in
  (mk ("clip_" ++ JS.String_of_Z now ++ "_"
         ++ JS.String_of_Z (Z.of_nat clipCounter))%string
      (match opt_name options with
       | Some s => if String.eqb s "" then "Audio Clip"%string else s
       | None => "Audio Clip"%string
       end)
      buffer
      None
      (num_or_zero (opt_startTime options))
      (num_or_zero (opt_offset options))
      (match opt_duration options with
       | Some d =>
           if Qeq_bool d 0
           then match buffer with
                | Some b => AudioBuffer.duration b
                | None => 0
                end
           else d
       | None =>
           match buffer with
           | Some b => AudioBuffer.duration b
           | None => 0
           end
       end)
      1
      None
      false,
   clipCounter).

Definition getOriginalDuration (c : t) : Q :=
  match audioBuffer c with
  | Some b => AudioBuffer.duration b
  | None => 0
  end.



Definition setDuration (d : Q) (c : t) : t :=
  let maxDuration := getOriginalDuration c - offset c in
  with_duration (Qmax (1 # 10) (Qmin maxDuration d)) c.

Definition clone (c : t) (now : Z) (clipCounter : nat) : t * nat :=
  constructor
    (mkOptions (audioBuffer c) (Some (name c)) (Some (startTime c))
               (Some (offset c)) (Some (duration c)))
    now clipCounter.

Definition with_waveformData (v : option (list Q)) (c : t) : t :=
  mk (id c) (name c) (audioBuffer c) (trackId c) (startTime c) (offset c)
     (duration c) (gain c) v (selected c).

(** The inner loop of [generateWaveformData]: the largest
    [Math.abs(channelData[j])] for [start <= j < stop], starting from 0. *)
Definition window_peak (channelData : list Q) (start stop : nat) : Q :=
  fold_left
    (fun max x =>
       let absValue := Qabs x in
       if JS.ltb max absValue then absValue else max)
    (firstn (stop - start) (skipn start channelData))
    0.

(** [generateWaveformData(samples)], for a whole number of points: the
    waveform returned and the clip, in which it is cached.  Without a buffer
    a zero-filled array is returned and nothing is cached. *)
Definition generateWaveformData (samples : nat) (c : t) : list Q * t :=
  match audioBuffer c with
  | None => (repeat 0 samples, c)
  | Some b =>
      let channelData := AudioBuffer.channelData b in
      let totalSamples := List.length channelData in
      let samplesPerPoint := (totalSamples / samples)%nat in
      let waveform :=
        map (fun i =>
               let start := (i * samplesPerPoint)%nat in
               let stop := Nat.min (start + samplesPerPoint) totalSamples in
               window_peak channelData start stop)
            (seq 0 samples) in
      (waveform, with_waveformData (Some waveform) c)
  end.

Definition getWaveformData (samples : nat) (c : t) : list Q * t :=
  match waveformData c with
  | Some w =>
      if negb (Nat.eqb (List.length w) samples)
      then generateWaveformData samples c
      else (w, c)
  | None => generateWaveformData samples c
  end.

End AudioClip.

(** ** Track *)

Module Track.

(** The Web Audio gain node bound to a track: only its [gain.value]
    matters here. *)
Record GainNode : Type := mkGain { gain_value : Q }.

Record t : Type := mk {
  id : string;
  name : string;
  color : string;
  volume : Q;
  pan : Q;
  muted : bool;
  solo : bool;
  clips : list AudioClip.t;
  gainNode : option GainNode
}.

Definition with_volume (v : Q) (x : t) : t :=
  mk (id x) (name x) (color x) v (pan x) (muted x) (solo x) (clips x)
     (gainNode x).

Definition with_muted (v : bool) (x : t) : t :=
  mk (id x) (name x) (color x) (volume x) (pan x) v (solo x) (clips x)
     (gainNode x).

Definition with_solo (v : bool) (x : t) : t :=
  mk (id x) (name x) (color x) (volume x) (pan x) (muted x) v (clips x)
     (gainNode x).

Definition with_clips (v : list AudioClip.t) (x : t) : t :=
  mk (id x) (name x) (color x) (volume x) (pan x) (muted x) (solo x) v
     (gainNode x).

Definition with_gainNode (v : option GainNode) (x : t) : t :=
  mk (id x) (name x) (color x) (volume x) (pan x) (muted x) (solo x)
     (clips x) v.

(** [if (this.gainNode) this.gainNode.gain.value = v] *)
Definition push_gain (v : Q) (x : t) : t :=
  match gainNode x with
  | Some _ => with_gainNode (Some (mkGain v)) x
  | None => x
  end.

Definition TRACK_COLORS : list string :=
  ["#6366f1"; "#ec4899"; "#f97316"; "#22c55e";
   "#3b82f6"; "#eab308"; "#14b8a6"; "#f43f5e"]%string.

Record Options : Type := mkOptions {
  opt_name : option string;
  opt_color : option string
}.

Definition truthy_string (o : option string) (default : string) : string :=
  match o with
  | Some s => if String.eqb s "" then default else s
  | None => default
  end.

(** [new Track(options)], with [Date.now()] and the module counter. *)
Definition constructor (options : Options) (now : Z) (trackCounter : nat)
  : t * nat :=
  let trackCounter := S trackCounter in
  let n := JS.String_of_Z (Z.of_nat trackCounter) in
  (mk ("track_" ++ JS.String_of_Z now ++ "_" ++ n)%string
      (truthy_string (opt_name options) ("Track " ++ n)%string)
      (truthy_string (opt_color options)
         (nth ((trackCounter - 1) mod List.length TRACK_COLORS)
              TRACK_COLORS ""%string))
      (8 # 10) 0 false false [] None,
   trackCounter).

Definition setVolume (v : Q) (x : t) : t :=
  let x := with_volume (Qmax 0 (Qmin 1 v)) x in
  push_gain (if muted x then 0 else volume x) x.

Definition setMuted (m : bool) (x : t) : t :=
  let x := with_muted m x in
  push_gain (if muted x then 0 else volume x) x.

Definition toggleMute (x : t) : t := setMuted (negb (muted x)) x.

Definition setSolo (s : bool) (x : t) : t := with_solo s x.

Definition toggleSolo (x : t) : t := setSolo (negb (solo x)) x.

Definition sortClips (x : t) : t :=
  with_clips
    (JS.Array_sort
       (fun a b => AudioClip.startTime a - AudioClip.startTime b) (clips x))
    x.

(** [clip.trackId = this.id; this.clips.push(clip); this.sortClips()] *)
Definition addClip (clip : AudioClip.t) (x : t) : t :=
  let clip := AudioClip.with_trackId (Some (id x)) clip in
  sortClips (with_clips (clips x ++ [clip]) x).

(** [findIndex] followed by [splice(index, 1)]: the first match goes. *)
Fixpoint remove_first (clipId : string) (l : list AudioClip.t)
  : list AudioClip.t :=
  match l with
  | [] => []
  | c :: r =>
      if String.eqb (AudioClip.id c) clipId then r
      else c :: remove_first clipId r
  end.

Definition removeClip (clipId : string) (x : t) : t :=
  with_clips (remove_first clipId (clips x)) x.

Definition getClip (clipId : string) (x : t) : option AudioClip.t :=
  find (fun c => String.eqb (AudioClip.id c) clipId) (clips x).

Definition getDuration (x : t) : Q :=
  fold_left
    (fun maxEnd clip =>
       let e := AudioClip.startTime clip + AudioClip.duration clip in
       if JS.ltb maxEnd e then e else maxEnd)
    (clips x) 0.

End Track.

(** ** AudioEngine *)

Module AudioEngine.

Inductive PlayState : Type := playing | paused | stopped.

(** A call made to one of the two callbacks. *)
Inductive Notification : Type :=
| TimeUpdate (time : Q)
| PlayStateChange (state : PlayState).

(** A buffer source started with [source.start(when, offset, duration)]
    and connected to the gain node of track [track]: one playback command. *)
Record Source : Type := mkSource {
  buffer : option AudioBuffer.t;
  track : string;
  clip : string;
  when : Q;
  offset : Q;
  duration : Q
}.

Record t : Type := mk {
  audioContext : bool;
  masterGain : option Q;
  isPlaying : bool;
  isPaused : bool;
  startTime : Q;
  pauseTime : Q;
  tempo : JS.number;
  currentTime : Q;
  tracks : list Track.t;
  activeSources : list Source;
  animationFrameId : bool;
  onTimeUpdate : bool;
  onPlayStateChange : bool;
  notified : list Notification
}.

(** [new AudioEngine()] *)
Definition constructor : t :=
  mk false None false false 0 0 (JS.Fin 120) 0 [] [] false false false [].

Definition with_context (ctx : bool) (g : option Q) (e : t) : t :=
  mk ctx g (isPlaying e) (isPaused e) (startTime e) (pauseTime e)
     (tempo e) (currentTime e) (tracks e) (activeSources e)
     (animationFrameId e) (onTimeUpdate e) (onPlayStateChange e)
     (notified e).

Definition with_isPlaying (v : bool) (e : t) : t :=
  mk (audioContext e) (masterGain e) v (isPaused e) (startTime e)
     (pauseTime e) (tempo e) (currentTime e) (tracks e) (activeSources e)
     (animationFrameId e) (onTimeUpdate e) (onPlayStateChange e)
     (notified e).

Definition with_isPaused (v : bool) (e : t) : t :=
  mk (audioContext e) (masterGain e) (isPlaying e) v (startTime e)
     (pauseTime e) (tempo e) (currentTime e) (tracks e) (activeSources e)
     (animationFrameId e) (onTimeUpdate e) (onPlayStateChange e)
     (notified e).

Definition with_startTime (v : Q) (e : t) : t :=
  mk (audioContext e) (masterGain e) (isPlaying e) (isPaused e) v
     (pauseTime e) (tempo e) (currentTime e) (tracks e) (activeSources e)
     (animationFrameId e) (onTimeUpdate e) (onPlayStateChange e)
     (notified e).

Definition with_pauseTime (v : Q) (e : t) : t :=
  mk (audioContext e) (masterGain e) (isPlaying e) (isPaused e)
     (startTime e) v (tempo e) (currentTime e) (tracks e) (activeSources e)
     (animationFrameId e) (onTimeUpdate e) (onPlayStateChange e)
     (notified e).

Definition with_tempo (v : JS.number) (e : t) : t :=
  mk (audioContext e) (masterGain e) (isPlaying e) (isPaused e)
     (startTime e) (pauseTime e) v (currentTime e) (tracks e)
     (activeSources e) (animationFrameId e) (onTimeUpdate e)
     (onPlayStateChange e) (notified e).

Definition with_currentTime (v : Q) (e : t) : t :=
  mk (audioContext e) (masterGain e) (isPlaying e) (isPaused e)
     (startTime e) (pauseTime e) (tempo e) v (tracks e) (activeSources e)
     (animationFrameId e) (onTimeUpdate e) (onPlayStateChange e)
     (notified e).

Definition with_tracks (v : list Track.t) (e : t) : t :=
  mk (audioContext e) (masterGain e) (isPlaying e) (isPaused e)
     (startTime e) (pauseTime e) (tempo e) (currentTime e) v
     (activeSources e) (animationFrameId e) (onTimeUpdate e)
     (onPlayStateChange e) (notified e).

Definition with_activeSources (v : list Source) (e : t) : t :=
  mk (audioContext e) (masterGain e) (isPlaying e) (isPaused e)
     (startTime e) (pauseTime e) (tempo e) (currentTime e) (tracks e) v
     (animationFrameId e) (onTimeUpdate e) (onPlayStateChange e)
     (notified e).

Definition with_animationFrameId (v : bool) (e : t) : t :=
  mk (audioContext e) (masterGain e) (isPlaying e) (isPaused e)
     (startTime e) (pauseTime e) (tempo e) (currentTime e) (tracks e)
     (activeSources e) v (onTimeUpdate e) (onPlayStateChange e)
     (notified e).

Definition with_callbacks (onTime onState : bool) (e : t) : t :=
  mk (audioContext e) (masterGain e) (isPlaying e) (isPaused e)
     (startTime e) (pauseTime e) (tempo e) (currentTime e) (tracks e)
     (activeSources e) (animationFrameId e) onTime onState (notified e).

Definition with_notified (v : list Notification) (e : t) : t :=
  mk (audioContext e) (masterGain e) (isPlaying e) (isPaused e)
     (startTime e) (pauseTime e) (tempo e) (currentTime e) (tracks e)
     (activeSources e) (animationFrameId e) (onTimeUpdate e)
     (onPlayStateChange e) v.

(** [if (this.onTimeUpdate) this.onTimeUpdate(time)] *)
Definition notifyTime (time : Q) (e : t) : t :=
  if onTimeUpdate e
  then with_notified (notified e ++ [TimeUpdate time]) e
  else e.

(** [if (this.onPlayStateChange) this.onPlayStateChange(state)] *)
Definition notifyState (state : PlayState) (e : t) : t :=
  if onPlayStateChange e
  then with_notified (notified e ++ [PlayStateChange state]) e
  else e.

(** [init()]: creates the context and the master gain (0.8) once. *)
Definition init (e : t) : t :=
  if audioContext e then e else with_context true (Some (8 # 10)) e.

Definition stopAllSources (e : t) : t := with_activeSources [] e.

Definition stopTimeUpdate (e : t) : t :=
  if animationFrameId e then with_animationFrameId false e else e.

(** The body of the [forEach] over the clips of a track in
    [schedulePlayback]: the source started for [c], if any. *)
Definition scheduleClip (now currentPlayTime : Q) (tr : Track.t)
  (c : AudioClip.t) : option Source :=
  if JS.ltb (AudioClip.startTime c + AudioClip.duration c) currentPlayTime
  then None
  else
    let clipOffset := JS.or_zero (AudioClip.offset c) in
    let '(when, offset) :=
      if Qle_bool currentPlayTime (AudioClip.startTime c)
      then (now + (AudioClip.startTime c - currentPlayTime), clipOffset)
      else (now, clipOffset + (currentPlayTime - AudioClip.startTime c)) in
    let duration := AudioClip.duration c - (offset - clipOffset) in
    if JS.ltb 0 duration
    then Some (mkSource (AudioClip.audioBuffer c) (Track.id tr)
                 (AudioClip.id c) when offset duration)
    else None.

Definition option_list {A : Type} (o : option A) : list A :=
  match o with
  | Some a => [a]
  | None => []
  end.

Definition scheduleTrack (now currentPlayTime : Q) (tr : Track.t)
  : list Source :=
  if Track.muted tr then []
  else flat_map (fun c => option_list (scheduleClip now currentPlayTime tr c))
         (Track.clips tr).

Definition schedulePlayback (now : Q) (e : t) : t :=
  let e := stopAllSources e in
  let currentPlayTime := now - startTime e in
  with_activeSources
    (activeSources e
       ++ flat_map (scheduleTrack now currentPlayTime) (tracks e))
    e.

(** One run of the [update] closure of [startTimeUpdate]: the animation
    frame callback. *)
Definition update (now : Q) (e : t) : t :=
  if negb (isPlaying e) || isPaused e then e
  else
    let e := with_currentTime (now - startTime e) e in
    let e := notifyTime (currentTime e) e in
    with_animationFrameId true e.

Definition startTimeUpdate (now : Q) (e : t) : t := update now e.

Definition play (now : Q) (e : t) : t :=
  if isPlaying e && negb (isPaused e) then e
  else
    let e := init e in
    let e :=
      if isPaused e
      then with_isPaused false (with_startTime (now - pauseTime e) e)
      else with_startTime (now - currentTime e) e in
    let e := with_isPlaying true e in
    let e := schedulePlayback now e in
    let e := startTimeUpdate now e in
    notifyState playing e.

Definition pause (now : Q) (e : t) : t :=
  if negb (isPlaying e) || isPaused e then e
  else
    let e := with_isPaused true e in
    let e := with_pauseTime (now - startTime e) e in
    let e := stopAllSources e in
    let e := stopTimeUpdate e in
    notifyState paused e.

Definition stop (e : t) : t :=
  let e := with_isPlaying false e in
  let e := with_isPaused false e in
  let e := with_currentTime 0 e in
  let e := with_pauseTime 0 e in
  let e := stopAllSources e in
  let e := stopTimeUpdate e in
  let e := notifyTime 0 e in
  notifyState stopped e.

Definition seekTo (now : Q) (time : Q) (e : t) : t :=
  let wasPlaying := isPlaying e && negb (isPaused e) in
  if negb (audioContext e) then
    let e := init e in
    let e := if wasPlaying then stopAllSources e else e in
    let e := with_currentTime (Qmax 0 time) e in
    let e := with_pauseTime (currentTime e) e in
    notifyTime (currentTime e) e
  else
    let e := if wasPlaying then stopAllSources e else e in
    let e := with_currentTime (Qmax 0 time) e in
    let e := with_startTime (now - currentTime e) e in
    let e := with_pauseTime (currentTime e) e in
    let e := notifyTime (currentTime e) e in
    if wasPlaying then schedulePlayback now e else e.

Definition setTempo (bpm : JS.number) (e : t) : t :=
  with_tempo (JS.Math_max (JS.Fin 20) (JS.Math_min (JS.Fin 300) bpm)) e.

Definition setMasterVolume (v : Q) (e : t) : t :=
  match masterGain e with
  | Some _ => with_context (audioContext e) (Some (Qmax 0 (Qmin 1 v))) e
  | None => e
  end.

Definition addTrack (tr : Track.t) (e : t) : t :=
  let e := init e in
  let tr := Track.with_gainNode (Some (Track.mkGain (Track.volume tr))) tr in
  with_tracks (tracks e ++ [tr]) e.

Fixpoint remove_first (trackId : string) (l : list Track.t) : list Track.t :=
  match l with
  | [] => []
  | x :: r =>
      if String.eqb (Track.id x) trackId then r
      else x :: remove_first trackId r
  end.

Definition removeTrack (trackId : string) (e : t) : t :=
  with_tracks (remove_first trackId (tracks e)) e.

Definition getTrack (trackId : string) (e : t) : option Track.t :=
  find (fun x => String.eqb (Track.id x) trackId) (tracks e).

(** [String(n).padStart(width, '0')] *)
Definition pad (width : nat) (n : Z) : string :=
  JS.padStart width "0"%char (JS.String_of_Z n).

(** The constants of [formatTime], in double arithmetic.  The remainder
    [%] of two doubles is exact; a sum [Math.floor(x) + 1] is rounded like
    any other, and its result is a whole number. *)
Definition totalBeats (bpm seconds : Q) : Q :=
  let beatsPerSecond := JS.fl (bpm / 60) in
  JS.fl (seconds * beatsPerSecond).

Definition bars (totalBeats : Q) : Z :=
  Qfloor (JS.fl (inject_Z (Qfloor (JS.fl (totalBeats / 4))) + 1)).

Definition beats (totalBeats : Q) : Z :=
  Qfloor (JS.fl (inject_Z (Qfloor (JS.rem totalBeats 4)) + 1)).

Definition ticks (totalBeats : Q) : Z :=
  Qfloor (JS.fl (JS.rem totalBeats 1 * 1000)).

Definition formatTime (seconds : Q) (e : t) : string :=
  match tempo e with
  | JS.NaN => "NaN:NaN:NaN"%string
  | JS.Fin bpm =>
      let totalBeats := totalBeats bpm seconds in
      (pad 3 (bars totalBeats) ++ ":" ++ pad 2 (beats totalBeats) ++ ":"
         ++ pad 3 (ticks totalBeats))%string
  end.

End AudioEngine.

(** ** TrackList: the solo logic of the track panel

    The sources hold two states of [TrackList.js].  [TrackList] is the one
    whose [handleSoloLogic] tests the mute flag while a solo is active;
    [TrackListLegacy] is the one that does not. *)

Module TrackList.

Definition handleSoloLogic (e : AudioEngine.t) : AudioEngine.t :=
  let hasSolo := existsb Track.solo (AudioEngine.tracks e) in
  AudioEngine.with_tracks
    (map (fun track =>
            if hasSolo
            then Track.push_gain
                   (if Track.muted track then 0
                    else if Track.solo track then Track.volume track else 0)
                   track
            else Track.push_gain
                   (if Track.muted track then 0 else Track.volume track)
                   track)
         (AudioEngine.tracks e))
    e.

(** The handlers hold a reference to a track object that is also an element
    of [audioEngine.tracks]; the object is designated here by its id. *)
Definition on_track (trackId : string) (f : Track.t -> Track.t)
  (e : AudioEngine.t) : AudioEngine.t :=
  AudioEngine.with_tracks
    (map (fun x => if String.eqb (Track.id x) trackId then f x else x)
         (AudioEngine.tracks e))
    e.

(** Click on the mute button of a track. *)
Definition muteClick (trackId : string) (e : AudioEngine.t) : AudioEngine.t :=
  handleSoloLogic (on_track trackId Track.toggleMute e).

(** Click on the solo button of a track. *)
Definition soloClick (trackId : string) (e : AudioEngine.t) : AudioEngine.t :=
  handleSoloLogic (on_track trackId Track.toggleSolo e).

(** Input on the volume slider of a track. *)
Definition volumeInput (trackId : string) (v : Q) (e : AudioEngine.t)
  : AudioEngine.t :=
  on_track trackId (Track.setVolume v) e.

Definition removeTrack (trackId : string) (e : AudioEngine.t)
  : AudioEngine.t :=
  handleSoloLogic (AudioEngine.removeTrack trackId e).

End TrackList.

Module TrackListLegacy.

Definition handleSoloLogic (e : AudioEngine.t) : AudioEngine.t :=
  let hasSolo := existsb Track.solo (AudioEngine.tracks e) in
  AudioEngine.with_tracks
    (map (fun track =>
            if hasSolo
            then Track.push_gain
                   (if Track.solo track then Track.volume track else 0)
                   track
            else Track.push_gain
                   (if Track.muted track then 0 else Track.volume track)
                   track)
         (AudioEngine.tracks e))
    e.

End TrackListLegacy.

(** ** Timeline: grid snapping *)

Module Timeline.

Record t : Type := mk {
  pixelsPerSecond : Q;
  snapToGrid : bool;
  gridSize : Q
}.

(** The configuration set by the constructor: a quarter of a beat. *)
Definition constructor : t := mk 50 true (1 # 4).

Definition snapTime (tl : t) (e : AudioEngine.t) (time : JS.number)
  : JS.number :=
  let secondsPerBeat := JS.div (JS.Fin 60) (AudioEngine.tempo e) in
  let snapInterval := JS.mul secondsPerBeat (JS.Fin (gridSize tl)) in
  JS.mul (JS.Math_round (JS.div time snapInterval)) snapInterval.

End Timeline.

(** ** Toolbar: the BPM field

    [Toolbar] follows [src/ui/Toolbar.js]; [ToolbarValidated] follows the
    state of the same class that adds [validateAndClampBpm]. *)

Module Toolbar.

(** The text of the field is held as its UTF-8 bytes.  [parseInt] skips
    the white space and the line terminators of ECMAScript: in ASCII, the
    space and tab to carriage return; beyond, U+00A0, U+1680, U+2000 to
    U+200A, U+2028, U+2029, U+202F, U+205F, U+3000 and U+FEFF, which take
    two or three bytes. *)
Definition is_space (c : ascii) : bool :=
  let n := nat_of_ascii c in
  (Nat.eqb n 32 || (Nat.leb 9 n && Nat.leb n 13))%bool.

Definition is_space2 (c1 c2 : ascii) : bool :=
  (Nat.eqb (nat_of_ascii c1) 194 && Nat.eqb (nat_of_ascii c2) 160)%bool.

Definition is_space3 (c1 c2 c3 : ascii) : bool :=
  let n1 := nat_of_ascii c1 in
  let n2 := nat_of_ascii c2 in
  let n3 := nat_of_ascii c3 in
  ((Nat.eqb n1 225 && Nat.eqb n2 154 && Nat.eqb n3 128)
   || (Nat.eqb n1 226 && Nat.eqb n2 128
       && ((Nat.leb 128 n3 && Nat.leb n3 138)
           || Nat.eqb n3 168 || Nat.eqb n3 169 || Nat.eqb n3 175))
   || (Nat.eqb n1 226 && Nat.eqb n2 129 && Nat.eqb n3 159)
   || (Nat.eqb n1 227 && Nat.eqb n2 128 && Nat.eqb n3 128)
   || (Nat.eqb n1 239 && Nat.eqb n2 187 && Nat.eqb n3 191))%bool.

Fixpoint skip_spaces (s : string) : string :=
  match s with
  | String c1 r1 =>
      if is_space c1 then skip_spaces r1
      else
        match r1 with
        | String c2 r2 =>
            if is_space2 c1 c2 then skip_spaces r2
            else
              match r2 with
              | String c3 r3 =>
                  if is_space3 c1 c2 c3 then skip_spaces r3 else s
              | EmptyString => s
              end
        | EmptyString => s
        end
  | EmptyString => s
  end.

Definition digit_value (c : ascii) : option Z :=
  let n := nat_of_ascii c in
  if (Nat.leb 48 n && Nat.leb n 57)%bool
  then Some (Z.of_nat (n - 48))
  else None.

(** The longest prefix of decimal digits, read as an integer. *)
Fixpoint read_digits (s : string) (acc : option Z) : option Z :=
  match s with
  | String c r =>
      match digit_value c with
      | Some d =>
          read_digits r
            (Some (10 * match acc with Some a => a | None => 0 end + d)%Z)
      | None => acc
      end
  | EmptyString => acc
  end.

(** [parseInt(text, 10)] on the text of an input field: the double
    nearest to the integer read. *)
Definition parseInt (text : string) : JS.number :=
  let s := skip_spaces text in
  let '(negative, s) :=
    match s with
    | String "-"%char r => (true, r)
    | String "+"%char r => (false, r)
    | _ => (false, s)
    end in
  match read_digits s None with
  | Some n => JS.Fin (JS.fl (inject_Z (if negative then - n else n)))
  | None => JS.NaN
  end.

(** The [change] listener of the BPM field. *)
Definition bpmChange (text : string) (e : AudioEngine.t) : AudioEngine.t :=
  let bpm := parseInt text in
  if negb (JS.isNaN bpm) then AudioEngine.setTempo bpm e else e.

End Toolbar.

Module ToolbarValidated.

(** [null] is [None]. *)
Definition validateAndClampBpm (value : string) : option Q :=
  match Toolbar.parseInt value with
  | JS.NaN => None
  | JS.Fin bpm => Some (Qmax 20 (Qmin 300 bpm))
  end.

(** [setBpm(bpm)], and the [change] listener, which does the same with the
    text of the field; the engine is left alone when validation fails. *)
Definition setBpm (bpm : string) (e : AudioEngine.t) : AudioEngine.t :=
  match validateAndClampBpm bpm with
  | None => e
  | Some validatedBpm => AudioEngine.setTempo (JS.Fin validatedBpm) e
  end.

End ToolbarValidated.

(** ** Helpers ([utils/helpers.js]) *)

Module Helpers.

Definition mapRange (value inMin inMax outMin outMax : Q) : JS.number :=
  JS.add
    (JS.div
       (JS.mul (JS.sub (JS.Fin value) (JS.Fin inMin))
          (JS.sub (JS.Fin outMax) (JS.Fin outMin)))
       (JS.sub (JS.Fin inMax) (JS.Fin inMin)))
    (JS.Fin outMin).


End Helpers.

(** ** The mix rule of the specification *)

Module MixResolver.

(** The effective gain of a track among [tracks], as the specification
    words it: with a solo anywhere, a muted track gets 0, a solo track its
    volume and any other track 0; without, a muted track gets 0 and any
    other its volume. *)
Definition effectiveGain (tracks : list Track.t) (track : Track.t) : Q :=
  let hasSolo := existsb Track.solo tracks in
  if hasSolo
  then if Track.muted track then 0
       else if Track.solo track then Track.volume track else 0
  else if Track.muted track then 0 else Track.volume track.

End MixResolver.

(** * Notions used in the statements *)

(** The comparator [(a, b) => key(a) - key(b)] and the order it sorts by. *)
Definition cmp_key {A : Type} (key : A -> Q) (a b : A) : Q := key a - key b.
Definition le_key {A : Type} (key : A -> Q) (a b : A) : Prop :=
  key a <= key b.

Definition by_startTime : AudioClip.t -> AudioClip.t -> Prop :=
  le_key AudioClip.startTime.

(** The value held by the gain node of a track, if it has one. *)
Definition sinkGain (tr : Track.t) : option Q :=
  option_map Track.gain_value (Track.gainNode tr).

(** The transport is playing when [isPlaying] is set and [isPaused] is
    not; it is paused when both are set. *)
Definition running (e : AudioEngine.t) : bool :=
  AudioEngine.isPlaying e && negb (AudioEngine.isPaused e).

(** The logical position at device time [now] while the transport runs. *)
Definition position (now : Q) (e : AudioEngine.t) : Q :=
  now - AudioEngine.startTime e.

(** *** The binary64 arithmetic of the kernel

    Rocq's primitive floats are IEEE-754 binary64 numbers, as JavaScript
    numbers are.  [binary64_agrees] compares their four operations with
    [JS.fl] on every pair of the doubles nearest to a/b, for a from -4 to 4
    and b from 1 to 5. *)
Definition Q_of_float (f : PrimFloat.float) : option Q :=
  match FloatOps.Prim2SF f with
  | SpecFloat.S754_zero _ => Some 0
  | SpecFloat.S754_finite s m e =>
      Some ((if s then - inject_Z (Z.pos m) else inject_Z (Z.pos m)) * 2 ^ e)
  | _ => None
  end.

Definition float_of_Z (z : Z) : PrimFloat.float :=
  if (z <? 0)%Z
  then PrimFloat.opp (PrimFloat.of_uint63 (Uint63.of_Z (- z)))
  else PrimFloat.of_uint63 (Uint63.of_Z z).

Definition same_number (f : PrimFloat.float) (q : Q) : bool :=
  match Q_of_float f with
  | Some x => Qeq_bool x q
  | None => false
  end.

Definition sample_ratios : list (Z * positive) :=
  flat_map
    (fun a => map (fun b => ((Z.of_nat a - 4)%Z, Pos.of_nat b)) (seq 1 5))
    (seq 0 9).

Definition agree_on (x y : Z * positive) : bool :=
  let fx :=
    PrimFloat.div (float_of_Z (fst x)) (float_of_Z (Z.pos (snd x))) in
  let fy :=
    PrimFloat.div (float_of_Z (fst y)) (float_of_Z (Z.pos (snd y))) in
  let qx := JS.fl (fst x # snd x) in
  let qy := JS.fl (fst y # snd y) in
  same_number fx qx && same_number fy qy
  && same_number (PrimFloat.add fx fy) (JS.fl (qx + qy))
  && same_number (PrimFloat.sub fx fy) (JS.fl (qx - qy))
  && same_number (PrimFloat.mul fx fy) (JS.fl (qx * qy))
  && (Qeq_bool qy 0 || same_number (PrimFloat.div fx fy) (JS.fl (qx / qy))).

Definition binary64_agrees : bool :=
  forallb (fun x => forallb (agree_on x) sample_ratios) sample_ratios.

(** The double nearest to [a / b], for integers of at most 53 bits. *)
Definition float_ratio (a b : Z) : PrimFloat.float :=
  PrimFloat.div (float_of_Z a) (float_of_Z b).

(** [seconds * (tempo / 60)], the quotient of [snapTime] at the grid of a
    quarter of a beat and the expression of [mapRange], in binary64. *)
Definition binary64_totalBeats (tempo seconds : PrimFloat.float)
  : PrimFloat.float :=
  PrimFloat.mul seconds (PrimFloat.div tempo (float_of_Z 60)).

Definition binary64_snapQuotient (tempo time : PrimFloat.float)
  : PrimFloat.float :=
  PrimFloat.div time
    (PrimFloat.mul (PrimFloat.div (float_of_Z 60) tempo) (float_ratio 1 4)).

Definition binary64_mapRange (value inMin inMax outMin outMax : PrimFloat.float)
  : PrimFloat.float :=
  PrimFloat.add
    (PrimFloat.div
       (PrimFloat.mul (PrimFloat.sub value inMin)
          (PrimFloat.sub outMax outMin))
       (PrimFloat.sub inMax inMin))
    outMin.

(** What the nearest integer is: within a half, and even on a tie. *)
Definition nearest_to (y : Q) (k : Z) : Prop :=
  (- (1 # 2) < y - inject_Z k /\ y - inject_Z k < 1 # 2)
  \/ ((y - inject_Z k == 1 # 2 \/ y - inject_Z k == - (1 # 2))
      /\ Z.even k = true).

(** Decimal fields of fixed width. *)
Definition digit (d : Z) : ascii := ascii_of_N (48 + Z.to_N d).

Definition digits2 (n : Z) : string :=
  String (digit (n / 10)) (String (digit (n mod 10)) EmptyString).

Definition digits3 (n : Z) : string :=
  String (digit (n / 100)) (digits2 (n mod 100)).

(** [p] holds of every integer from 0 to [bound - 1]. *)
Definition below (bound : nat) (p : Z -> bool) : bool :=
  forallb (fun k => p (Z.of_nat k)) (seq 0 bound).

(** ** Sample data

    Tracks as [addTrack] leaves them (gain node bound, gain equal to the
    volume), with the mix flags set as the buttons would. *)

Definition sampleClip (id : string) (start off dur : Q) : AudioClip.t :=
  AudioClip.mk id "Audio Clip" None None start off dur 1 None false.

Definition sampleTrack (id : string) (vol : Q) (m s : bool)
  (cs : list AudioClip.t) : Track.t :=
  Track.mk id "Track" "#6366f1" vol 0 m s cs (Some (Track.mkGain vol)).

Definition engineWith (trs : list Track.t) : AudioEngine.t :=
  AudioEngine.with_tracks trs (AudioEngine.init AudioEngine.constructor).

Definition soloTrack : Track.t := sampleTrack "A" (8 # 10) false true [].

Definition plainTrack : Track.t :=
  sampleTrack "B" (8 # 10) false false [sampleClip "b" 0 0 3].


Definition mutedTrack : Track.t :=
  sampleTrack "M" (8 # 10) true false [sampleClip "m" 2 0 30].

Definition mutedSoloTrack : Track.t := sampleTrack "T" (8 # 10) true true [].

(** The clip of the scheduling scenarios: start 2, offset 0, duration 3. *)
Definition scenarioClip : AudioClip.t := sampleClip "c" 2 0 3.

Definition scenarioTrack : Track.t :=
  sampleTrack "T" (8 # 10) false false [scenarioClip].


(** A no-break space (U+00A0) and an em space (U+2003), in UTF-8. *)
Definition nbsp : string :=
  String (ascii_of_nat 194) (String (ascii_of_nat 160) EmptyString).

Definition emSpace : string :=
  String (ascii_of_nat 226)
    (String (ascii_of_nat 128) (String (ascii_of_nat 131) EmptyString)).

(** Fresh engines whose tempo was set to 29 and to 130. *)
Definition tempo29 : AudioEngine.t :=
  AudioEngine.setTempo (JS.Fin 29) AudioEngine.constructor.

Definition tempo130 : AudioEngine.t :=
  AudioEngine.setTempo (JS.Fin 130) AudioEngine.constructor.

(** Numbers far from the ends of the exponent range of doubles. *)
Definition moderate (x : Q) : Prop := Qabs x <= 2 ^ 300.

(** An engine with both callbacks registered. *)
Definition sampleEngine : AudioEngine.t :=
  AudioEngine.with_callbacks true true (engineWith [scenarioTrack]).

(** ** Notions of the further properties *)

(** One step of the peak search: [if (absValue > max) max = absValue]. *)
Definition peak_step (max x : Q) : Q :=
  if JS.ltb max (Qabs x) then Qabs x else max.

(** A clip over a buffer of five samples. *)
Definition rampBuffer : AudioBuffer.t :=
  AudioBuffer.mk 1 4 [1 # 10; - (5 # 10); 3 # 10; - (2 # 10); 9 # 10].

Definition rampClip : AudioClip.t :=
  AudioClip.mk "ramp" "Ramp" (Some rampBuffer) None 0 0 4 1 None false.

(** A track with two clips in order of start time. *)
Definition twoClipTrack : Track.t :=
  sampleTrack "T" (8 # 10) false false
    [sampleClip "m" 1 0 1; sampleClip "p" 5 0 1].

(** One step of [getDuration]: [if (end > maxEnd) maxEnd = end]. *)
Definition end_step (maxEnd : Q) (clip : AudioClip.t) : Q :=
  let e := AudioClip.startTime clip + AudioClip.duration clip in
  if JS.ltb maxEnd e then e else maxEnd.

(** The body of the loop of [TrackList.handleSoloLogic] for one track. *)
Definition resolveTrack (hasSolo : bool) (track : Track.t) : Track.t :=
  if hasSolo
  then Track.push_gain
         (if Track.muted track then 0
          else if Track.solo track then Track.volume track else 0)
         track
  else Track.push_gain
         (if Track.muted track then 0 else Track.volume track)
         track.

(** What a handler does to the track it holds, as in [TrackList.on_track]. *)
Definition onId (trackId : string) (f : Track.t -> Track.t) (x : Track.t)
  : Track.t :=
  if String.eqb (Track.id x) trackId then f x else x.

(** * Properties *)

(** ** AudioClip *)

Lemma or_zero_eq (x : Q) : JS.or_zero x == x.
Proof.
  unfold JS.or_zero.
  destruct (Qeq_bool x 0) eqn:E; [ | reflexivity ].
  apply Qeq_bool_iff in E. symmetry. exact E.
Qed.

(** C10: the clone of a clip has gain 1 and is not selected, whatever the
    gain and the selection of the original; it belongs to no track and has
    no cached waveform.  What carries over is the buffer reference, the
    start time, the offset, the name (through [name || 'Audio Clip']) and
    the duration (through [duration || original duration]). *)
Theorem clone_resets_gain_and_selection :
  forall (c : AudioClip.t) (now : Z) (clipCounter : nat),
    let c' := fst (AudioClip.clone c now clipCounter) in
    AudioClip.gain c' = 1
    /\ AudioClip.selected c' = false
    /\ AudioClip.trackId c' = None
    /\ AudioClip.waveformData c' = None
    /\ AudioClip.audioBuffer c' = AudioClip.audioBuffer c
    /\ AudioClip.startTime c' == AudioClip.startTime c
    /\ AudioClip.offset c' == AudioClip.offset c
    /\ AudioClip.name c'
       = (if String.eqb (AudioClip.name c) "" then "Audio Clip"%string
          else AudioClip.name c)
    /\ AudioClip.duration c'
       == (if Qeq_bool (AudioClip.duration c) 0
           then AudioClip.getOriginalDuration c
           else AudioClip.duration c).
Proof.
  intros c now n c'. subst c'. unfold AudioClip.clone, AudioClip.constructor.
  cbn [fst AudioClip.gain AudioClip.selected AudioClip.trackId
       AudioClip.waveformData AudioClip.audioBuffer AudioClip.startTime
       AudioClip.offset AudioClip.name AudioClip.duration
       AudioClip.opt_audioBuffer AudioClip.opt_name AudioClip.opt_startTime
       AudioClip.opt_offset AudioClip.opt_duration AudioClip.num_or_zero].
  repeat split; try reflexivity; apply or_zero_eq.
Qed.

(** Two clips that differ in gain and selection only have the same clone. *)
Lemma clone_forgets_gain_and_selection :
  forall (c : AudioClip.t) (g : Q) (sel : bool) (now : Z) (n : nat),
    AudioClip.clone
      (AudioClip.mk (AudioClip.id c) (AudioClip.name c)
         (AudioClip.audioBuffer c) (AudioClip.trackId c)
         (AudioClip.startTime c) (AudioClip.offset c) (AudioClip.duration c)
         g (AudioClip.waveformData c) sel) now n
    = AudioClip.clone c now n.
Proof. reflexivity. Qed.

(** A clip that was selected and turned down comes back from [clone] with
    gain 1 and unselected, under a fresh id. *)
Example clone_of_selected_clip :
  AudioClip.clone
    (AudioClip.mk "clip_5_1" "Kick" None (Some "track_1_1"%string) 2 (1 # 2)
       3 (1 # 4) None true)
    7 1
  = (AudioClip.mk "clip_7_2" "Kick" None None 2 (1 # 2) 3 1 None false, 2%nat).
Proof. reflexivity. Qed.

(** ** Track: the clip list *)

Section SortByKey.

Variable A : Type.
Variable key : A -> Q.

Lemma cmp_le_iff (a b : A) :
  Qle_bool (cmp_key key a b) 0 = true <-> le_key key a b.
Proof.
  unfold cmp_key, le_key. rewrite Qle_bool_iff. split; intro H; lra.
Qed.

Lemma sort_insert_perm (a : A) (l : list A) :
  Permutation (a :: l) (JS.sort_insert (cmp_key key) a l).
Proof.
  induction l as [ | b r IH ]; cbn [JS.sort_insert].
  - apply Permutation_refl.
  - destruct (Qle_bool (cmp_key key a b) 0).
    + apply Permutation_refl.
    + eapply perm_trans; [ apply perm_swap | ].
      apply perm_skip. exact IH.
Qed.

Lemma Array_sort_perm (l : list A) :
  Permutation l (JS.Array_sort (cmp_key key) l).
Proof.
  induction l as [ | a r IH ]; cbn [JS.Array_sort].
  - apply perm_nil.
  - eapply perm_trans; [ apply perm_skip; exact IH | ].
    apply sort_insert_perm.
Qed.

Lemma sort_insert_sorted (a : A) (l : list A) :
  StronglySorted (le_key key) l ->
  StronglySorted (le_key key) (JS.sort_insert (cmp_key key) a l).
Proof.
  induction l as [ | b r IH ]; intro S; cbn [JS.sort_insert].
  - constructor; [ constructor | constructor ].
  - apply StronglySorted_inv in S. destruct S as [Sr Hb].
    destruct (Qle_bool (cmp_key key a b) 0) eqn:E.
    + apply cmp_le_iff in E.
      constructor; [ constructor; assumption | ].
      constructor; [ exact E | ].
      eapply Forall_impl; [ | exact Hb ].
      intros x Hx. unfold le_key in *. lra.
    + assert (Hba : le_key key b a).
      { unfold le_key.
        destruct (Qlt_le_dec (key a) (key b)) as [Hlt | Hle]; [ | exact Hle ].
        assert (Qle_bool (cmp_key key a b) 0 = true) as E'
            by (apply cmp_le_iff; unfold le_key; lra).
        congruence. }
      constructor; [ apply IH; exact Sr | ].
      eapply Permutation_Forall; [ apply sort_insert_perm | ].
      constructor; assumption.
Qed.

Lemma Array_sort_sorted (l : list A) :
  StronglySorted (le_key key) (JS.Array_sort (cmp_key key) l).
Proof.
  induction l as [ | a r IH ]; cbn [JS.Array_sort].
  - constructor.
  - apply sort_insert_sorted. exact IH.
Qed.

(** Sorting an already sorted list leaves it as it is: the stable sort
    moves no element past an equal one. *)
Lemma sort_insert_head (a : A) (l : list A) :
  Forall (le_key key a) l -> JS.sort_insert (cmp_key key) a l = a :: l.
Proof.
  destruct l as [ | b r ]; intro H; cbn [JS.sort_insert]; [ reflexivity | ].
  apply Forall_inv in H. apply cmp_le_iff in H. rewrite H. reflexivity.
Qed.

Lemma Array_sort_id (l : list A) :
  StronglySorted (le_key key) l -> JS.Array_sort (cmp_key key) l = l.
Proof.
  induction l as [ | a r IH ]; intro S; cbn [JS.Array_sort]; [ reflexivity | ].
  apply StronglySorted_inv in S. destruct S as [Sr Ha].
  rewrite (IH Sr). apply sort_insert_head. exact Ha.
Qed.

End SortByKey.

Lemma sortClips_clips (tr : Track.t) :
  Track.clips (Track.sortClips tr)
  = JS.Array_sort (cmp_key AudioClip.startTime) (Track.clips tr).
Proof. reflexivity. Qed.

(** C9: after [addClip c] the clips of the track are sorted by ascending
    start time, whatever their order was before; they are the former clips
    and [c], and [c] is in the list with the id of the track as its
    [trackId]. *)
Theorem addClip_sorted_by_startTime :
  forall (tr : Track.t) (c : AudioClip.t),
    let tr' := Track.addClip c tr in
    let c' := AudioClip.with_trackId (Some (Track.id tr)) c in
    StronglySorted by_startTime (Track.clips tr')
    /\ Permutation (c' :: Track.clips tr) (Track.clips tr')
    /\ In c' (Track.clips tr')
    /\ AudioClip.trackId c' = Some (Track.id tr')
    /\ AudioClip.startTime c' = AudioClip.startTime c.
Proof.
  intros tr c tr' c'. subst tr'.
  unfold Track.addClip. fold c'. rewrite sortClips_clips.
  cbn [Track.clips Track.with_clips].
  assert (P : Permutation (c' :: Track.clips tr)
                (JS.Array_sort (cmp_key AudioClip.startTime)
                   (Track.clips tr ++ [c']))).
  { eapply perm_trans; [ | apply Array_sort_perm ].
    apply Permutation_cons_append. }
  split; [ | split; [ | split; [ | split ] ] ].
  - apply Array_sort_sorted.
  - exact P.
  - eapply Permutation_in; [ exact P | left; reflexivity ].
  - reflexivity.
  - reflexivity.
Qed.

(** A clip dropped in front of two others ends up first. *)
Example addClip_in_front :
  map AudioClip.id
    (Track.clips
       (Track.addClip (sampleClip "new" 1 0 1)
          (sampleTrack "T" 1 false false
             [sampleClip "a" 2 0 1; sampleClip "b" 5 0 1])))
  = ["new"; "a"; "b"]%string.
Proof. reflexivity. Qed.

(** ** The mix: mute, solo and the gain pushed to the sink *)

Lemma sinkGain_push_gain (v : Q) (tr : Track.t) :
  sinkGain (Track.push_gain v tr) = option_map (fun _ => v) (Track.gainNode tr).
Proof.
  unfold sinkGain, Track.push_gain.
  destruct (Track.gainNode tr) eqn:E; cbn; [ reflexivity | ].
  rewrite E. reflexivity.
Qed.

(** [handleSoloLogic] of [TrackList] pushes the effective gain of the mix
    rule to every bound sink. *)
Lemma handleSoloLogic_canonical (e : AudioEngine.t) :
  map sinkGain (AudioEngine.tracks (TrackList.handleSoloLogic e))
  = map (fun tr =>
           option_map
             (fun _ => MixResolver.effectiveGain (AudioEngine.tracks e) tr)
             (Track.gainNode tr))
        (AudioEngine.tracks e).
Proof.
  unfold TrackList.handleSoloLogic, MixResolver.effectiveGain.
  cbn [AudioEngine.tracks AudioEngine.with_tracks].
  rewrite map_map. apply map_ext. intro tr.
  destruct (existsb Track.solo (AudioEngine.tracks e));
    apply sinkGain_push_gain.
Qed.

(** The mute and solo buttons call [handleSoloLogic] after the toggle, so
    the sinks hold the effective gains of the new mix state. *)
Lemma muteClick_canonical (trackId : string) (e : AudioEngine.t) :
  map sinkGain (AudioEngine.tracks (TrackList.muteClick trackId e))
  = map (fun tr =>
           option_map
             (fun _ =>
                MixResolver.effectiveGain
                  (AudioEngine.tracks
                     (TrackList.on_track trackId Track.toggleMute e))
                  tr)
             (Track.gainNode tr))
        (AudioEngine.tracks (TrackList.on_track trackId Track.toggleMute e)).
Proof. apply handleSoloLogic_canonical. Qed.

Lemma soloClick_canonical (trackId : string) (e : AudioEngine.t) :
  map sinkGain (AudioEngine.tracks (TrackList.soloClick trackId e))
  = map (fun tr =>
           option_map
             (fun _ =>
                MixResolver.effectiveGain
                  (AudioEngine.tracks
                     (TrackList.on_track trackId Track.toggleSolo e))
                  tr)
             (Track.gainNode tr))
        (AudioEngine.tracks (TrackList.on_track trackId Track.toggleSolo e)).
Proof. apply handleSoloLogic_canonical. Qed.

(** [handleSoloLogic] of [TrackListLegacy]: while a solo is active, the
    gain pushed depends on the solo flag alone. *)
Lemma handleSoloLogic_legacy_gains (e : AudioEngine.t) :
  map sinkGain (AudioEngine.tracks (TrackListLegacy.handleSoloLogic e))
  = map (fun tr =>
           option_map
             (fun _ =>
                if existsb Track.solo (AudioEngine.tracks e)
                then if Track.solo tr then Track.volume tr else 0
                else if Track.muted tr then 0 else Track.volume tr)
             (Track.gainNode tr))
        (AudioEngine.tracks e).
Proof.
  unfold TrackListLegacy.handleSoloLogic.
  cbn [AudioEngine.tracks AudioEngine.with_tracks].
  rewrite map_map. apply map_ext. intro tr.
  destruct (existsb Track.solo (AudioEngine.tracks e));
    apply sinkGain_push_gain.
Qed.

(** Both states of [handleSoloLogic] push the same gains as long as no
    track is muted and solo at once. *)
Lemma handleSoloLogic_legacy_agrees (e : AudioEngine.t) :
  forallb (fun tr => negb (Track.muted tr && Track.solo tr))
    (AudioEngine.tracks e) = true ->
  map sinkGain (AudioEngine.tracks (TrackListLegacy.handleSoloLogic e))
  = map sinkGain (AudioEngine.tracks (TrackList.handleSoloLogic e)).
Proof.
  intro H. rewrite forallb_forall in H.
  unfold TrackListLegacy.handleSoloLogic, TrackList.handleSoloLogic.
  cbn [AudioEngine.tracks AudioEngine.with_tracks].
  rewrite !map_map. apply map_ext_in. intros tr Hin.
  specialize (H tr Hin).
  destruct (existsb Track.solo (AudioEngine.tracks e)); [ | reflexivity ].
  rewrite !sinkGain_push_gain.
  destruct (Track.muted tr), (Track.solo tr); try reflexivity.
  discriminate H.
Qed.

(** The matrix of the specification: A solo, B muted, C plain, in both
    states of [handleSoloLogic]. *)
Lemma solo_matrix (va vb vc : Q) :
  map sinkGain
    (AudioEngine.tracks
       (TrackList.handleSoloLogic
          (engineWith
             [sampleTrack "A" va false true [];
              sampleTrack "B" vb true false [];
              sampleTrack "C" vc false false []])))
  = [Some va; Some 0; Some 0]
  /\ map sinkGain
       (AudioEngine.tracks
          (TrackListLegacy.handleSoloLogic
             (engineWith
                [sampleTrack "A" va false true [];
                 sampleTrack "B" vb true false [];
                 sampleTrack "C" vc false false []])))
     = [Some va; Some 0; Some 0].
Proof. split; reflexivity. Qed.

(** C1: on a track that is muted and solo at once, with volume 8/10, the
    rule gives gain 0 and [handleSoloLogic] of [TrackList] pushes 0, but
    [handleSoloLogic] of [TrackListLegacy] pushes the volume: mute does not
    take precedence over solo there. *)
Theorem legacy_solo_overrides_mute :
  MixResolver.effectiveGain [mutedSoloTrack] mutedSoloTrack = 0
  /\ map sinkGain
       (AudioEngine.tracks
          (TrackList.handleSoloLogic (engineWith [mutedSoloTrack])))
     = [Some 0]
  /\ map sinkGain
       (AudioEngine.tracks
          (TrackListLegacy.handleSoloLogic (engineWith [mutedSoloTrack])))
     = [Some (8 # 10)]
  /\ ~ (8 # 10) == 0.
Proof.
  repeat split; try reflexivity.
  intro H. discriminate H.
Qed.

(** The setters of [Track] push [muted ? 0 : volume], with the volume
    clamped to [0, 1]. *)
Lemma setVolume_pushes (v : Q) (tr : Track.t) :
  sinkGain (Track.setVolume v tr)
  = option_map
      (fun _ => if Track.muted tr then 0 else Qmax 0 (Qmin 1 v))
      (Track.gainNode tr).
Proof. unfold Track.setVolume. rewrite sinkGain_push_gain. reflexivity. Qed.

Lemma setMuted_pushes (m : bool) (tr : Track.t) :
  sinkGain (Track.setMuted m tr)
  = option_map (fun _ => if m then 0 else Track.volume tr)
      (Track.gainNode tr).
Proof. unfold Track.setMuted. rewrite sinkGain_push_gain. reflexivity. Qed.

Lemma setVolume_fields (v : Q) (tr : Track.t) :
  Track.solo (Track.setVolume v tr) = Track.solo tr
  /\ Track.muted (Track.setVolume v tr) = Track.muted tr
  /\ Track.volume (Track.setVolume v tr) = Qmax 0 (Qmin 1 v).
Proof.
  unfold Track.setVolume, Track.push_gain.
  cbn [Track.gainNode Track.with_volume].
  destruct (Track.gainNode tr); repeat split.
Qed.

Lemma setMuted_fields (m : bool) (tr : Track.t) :
  Track.solo (Track.setMuted m tr) = Track.solo tr
  /\ Track.muted (Track.setMuted m tr) = m
  /\ Track.volume (Track.setMuted m tr) = Track.volume tr.
Proof.
  unfold Track.setMuted, Track.push_gain.
  cbn [Track.gainNode Track.with_muted].
  destruct (Track.gainNode tr); repeat split.
Qed.

(** C8, as the code has it: on a track with a bound sink, [setVolume] and
    [setMuted] push [muted ? 0 : volume] at once.  This is the effective
    gain of the mix rule whenever no track is solo or the track itself is;
    the setter does not look at the other tracks. *)
Theorem setters_push_gain_without_solo :
  forall (tracks : list Track.t) (tr : Track.t) (g : Track.GainNode),
    Track.gainNode tr = Some g ->
    existsb Track.solo tracks = false \/ Track.solo tr = true ->
    (forall v : Q,
        sinkGain (Track.setVolume v tr)
        = Some (if Track.muted tr then 0 else Qmax 0 (Qmin 1 v))
        /\ sinkGain (Track.setVolume v tr)
           = Some (MixResolver.effectiveGain tracks (Track.setVolume v tr)))
    /\ (forall m : bool,
           sinkGain (Track.setMuted m tr)
           = Some (if m then 0 else Track.volume tr)
           /\ sinkGain (Track.setMuted m tr)
              = Some (MixResolver.effectiveGain tracks (Track.setMuted m tr))).
Proof.
  intros tracks tr g Hg Hsolo. split.
  - intro v. rewrite setVolume_pushes, Hg. cbn [option_map].
    split; [ reflexivity | ].
    unfold MixResolver.effectiveGain.
    destruct (setVolume_fields v tr) as (-> & -> & ->).
    destruct Hsolo as [-> | ->]; [ reflexivity | ].
    destruct (existsb Track.solo tracks); reflexivity.
  - intro m. rewrite setMuted_pushes, Hg. cbn [option_map].
    split; [ reflexivity | ].
    unfold MixResolver.effectiveGain.
    destruct (setMuted_fields m tr) as (-> & -> & ->).
    destruct Hsolo as [-> | ->]; [ reflexivity | ].
    destruct (existsb Track.solo tracks); reflexivity.
Qed.

Lemma setters_push_gain_without_solo_witness :
  sinkGain (Track.setVolume (1 # 2) plainTrack)
  = Some (MixResolver.effectiveGain [plainTrack; mutedTrack]
            (Track.setVolume (1 # 2) plainTrack))
  /\ sinkGain (Track.setMuted true plainTrack)
     = Some (MixResolver.effectiveGain [plainTrack; mutedTrack]
               (Track.setMuted true plainTrack)).
Proof.
  destruct (setters_push_gain_without_solo [plainTrack; mutedTrack]
              plainTrack (Track.mkGain (8 # 10)))
    as [Hvol Hmute].
  - reflexivity.
  - left. reflexivity.
  - split.
    + exact (proj2 (Hvol (1 # 2))).
    + exact (proj2 (Hmute true)).
Defined.

(** C8 fails as stated: with track A solo, moving the volume slider of the
    plain track B to 1/2 pushes 1/2 to the sink of B, whose effective gain
    under the rule is 0. *)
Lemma setVolume_ignores_solo :
  AudioEngine.tracks
    (TrackList.volumeInput "B" (1 # 2) (engineWith [soloTrack; plainTrack]))
  = [soloTrack; Track.setVolume (1 # 2) plainTrack]
  /\ exists pushed : Q,
       sinkGain (Track.setVolume (1 # 2) plainTrack) = Some pushed
       /\ pushed == 1 # 2
       /\ ~ pushed
            == MixResolver.effectiveGain
                 [soloTrack; Track.setVolume (1 # 2) plainTrack]
                 (Track.setVolume (1 # 2) plainTrack).
Proof.
  split; [ reflexivity | ].
  exists (Qmax 0 (Qmin 1 (1 # 2))).
  repeat split.
  intro H. discriminate H.
Qed.

(** ** Scheduling *)

Lemma ltb_true_iff (a b : Q) : JS.ltb a b = true <-> a < b.
Proof.
  unfold JS.ltb. rewrite negb_true_iff.
  destruct (Qle_bool b a) eqn:E.
  - apply Qle_bool_iff in E. split; [ discriminate | intro H; lra ].
  - split; [ intros _ | reflexivity ].
    destruct (Qlt_le_dec a b) as [H | H]; [ exact H | ].
    apply Qle_bool_iff in H. congruence.
Qed.

Lemma ltb_false_iff (a b : Q) : JS.ltb a b = false <-> b <= a.
Proof.
  unfold JS.ltb. rewrite negb_false_iff. apply Qle_bool_iff.
Qed.

Lemma Qle_bool_false_iff (a b : Q) : Qle_bool a b = false <-> b < a.
Proof.
  destruct (Qle_bool a b) eqn:E.
  - apply Qle_bool_iff in E. split; [ discriminate | intro H; lra ].
  - split; [ intros _ | reflexivity ].
    destruct (Qlt_le_dec b a) as [H | H]; [ exact H | ].
    apply Qle_bool_iff in H. congruence.
Qed.


(** A clip that has not started yet at position [P] is started
    [startTime - P] later, from its offset, for its whole duration. *)
Lemma scheduleClip_future (now P : Q) (tr : Track.t) (c : AudioClip.t) :
  P <= AudioClip.startTime c ->
  0 < AudioClip.duration c ->
  exists s : AudioEngine.Source,
    AudioEngine.scheduleClip now P tr c = Some s
    /\ AudioEngine.track s = Track.id tr
    /\ AudioEngine.clip s = AudioClip.id c
    /\ AudioEngine.when s = now + (AudioClip.startTime c - P)
    /\ AudioEngine.offset s == AudioClip.offset c
    /\ AudioEngine.duration s == AudioClip.duration c.
Proof.
  intros Hstart Hdur. unfold AudioEngine.scheduleClip.
  pose proof (or_zero_eq (AudioClip.offset c)) as Hoz.
  assert (E1 : JS.ltb (AudioClip.startTime c + AudioClip.duration c) P
               = false) by (apply ltb_false_iff; lra).
  assert (E2 : Qle_bool P (AudioClip.startTime c) = true)
    by (apply Qle_bool_iff; exact Hstart).
  rewrite E1, E2.
  assert (E3 : JS.ltb 0
                 (AudioClip.duration c
                  - (JS.or_zero (AudioClip.offset c)
                     - JS.or_zero (AudioClip.offset c))) = true)
    by (apply ltb_true_iff; lra).
  rewrite E3. eexists. split; [ reflexivity | ].
  cbn [AudioEngine.track AudioEngine.clip AudioEngine.buffer
       AudioEngine.when AudioEngine.offset AudioEngine.duration].
  repeat split; try lra.
Qed.





(** ** Transport *)

(** From a transport that is not running, [seekTo t] and then [play()]
    schedules every track from position [max 0 t]. *)
Lemma play_after_seek (D0 D t : Q) (e : AudioEngine.t) :
  running e = false ->
  let e' := AudioEngine.play D (AudioEngine.seekTo D0 t e) in
  AudioEngine.activeSources e'
  = flat_map (AudioEngine.scheduleTrack D (position D e'))
      (AudioEngine.tracks e)
  /\ position D e' == Qmax 0 t
  /\ running e' = true.
Proof.
  unfold running, position. destruct e as [ctx mg pl pa st pt tp ct trs src af ot os nt].
  cbn [AudioEngine.isPlaying AudioEngine.isPaused]. intro H.
  destruct ctx, pl, pa, ot, os; try discriminate H;
    (cbn; repeat split; try reflexivity; ring).
Qed.


(** The companion scenario: [seek(0)] and then [play()] start the same clip
    2 seconds after [D], from offset 0, for its whole duration. *)
Lemma seek_0_then_play_future_clip (D0 D : Q) (e : AudioEngine.t)
  (tr : Track.t) (c : AudioClip.t) :
  running e = false ->
  AudioEngine.tracks e = [tr] ->
  Track.muted tr = false ->
  Track.clips tr = [c] ->
  AudioClip.startTime c == 2 ->
  AudioClip.offset c == 0 ->
  AudioClip.duration c == 3 ->
  exists s : AudioEngine.Source,
    AudioEngine.activeSources (AudioEngine.play D (AudioEngine.seekTo D0 0 e))
    = [s]
    /\ AudioEngine.when s == D + 2
    /\ AudioEngine.offset s == 0
    /\ AudioEngine.duration s == 3.
Proof.
  intros Hrun Htrs Hm Hcs Hst Hoff Hdur.
  destruct (play_after_seek D0 D 0 e Hrun) as (Hsrc & Hpos & _).
  set (e' := AudioEngine.play D (AudioEngine.seekTo D0 0 e)) in *.
  assert (Hmax : Qmax 0 0 == 0) by (apply Q.max_r; lra).
  destruct (scheduleClip_future D (position D e') tr c)
    as (s & Hs & _ & _ & Hw & Ho & Hd); [ lra | lra | ].
  exists s. rewrite Hsrc, Htrs. cbn [flat_map].
  unfold AudioEngine.scheduleTrack. rewrite Hm, Hcs. cbn [flat_map].
  rewrite Hs. cbn [AudioEngine.option_list app].
  repeat split; [ rewrite Hw; lra | lra | lra ].
Qed.








(** The notifications of a session: play at 5, pause at 8, play at 20,
    stop. *)
Example session_notifications :
  AudioEngine.notified
    (AudioEngine.stop
       (AudioEngine.play 20
          (AudioEngine.pause 8 (AudioEngine.play 5 sampleEngine))))
  = [AudioEngine.TimeUpdate (5 - (5 - 0));
     AudioEngine.PlayStateChange AudioEngine.playing;
     AudioEngine.PlayStateChange AudioEngine.paused;
     AudioEngine.TimeUpdate (20 - (20 - (8 - (5 - 0))));
     AudioEngine.PlayStateChange AudioEngine.playing;
     AudioEngine.TimeUpdate 0;
     AudioEngine.PlayStateChange AudioEngine.stopped].
Proof. reflexivity. Qed.

(** ** Tempo *)

Lemma clamp_spec (lo hi x : Q) :
  lo <= hi ->
  lo <= Qmax lo (Qmin hi x) <= hi
  /\ (lo <= x <= hi -> Qmax lo (Qmin hi x) == x)
  /\ (x < lo -> Qmax lo (Qmin hi x) == lo)
  /\ (hi < x -> Qmax lo (Qmin hi x) == hi).
Proof.
  intro Hlh.
  destruct (Q.min_spec hi x) as [[H1 E1] | [H1 E1]];
    destruct (Q.max_spec lo (Qmin hi x)) as [[H2 E2] | [H2 E2]];
    rewrite E2; rewrite ?E1 in *; repeat split; intros; lra.
Qed.

(** C4, as the code has it: [setTempo] stores a numeric [bpm] clamped to
    [20, 300], and changes nothing but the tempo.  It has no validity test
    of its own: text that is not a number is rejected before the call, by
    the BPM field of the toolbar ([bpmChange], [setBpm]), which then leaves
    the engine as it is. *)
Theorem setTempo_clamps_toolbar_rejects :
  forall (e : AudioEngine.t),
    (forall bpm : Q,
        exists t : Q,
          AudioEngine.setTempo (JS.Fin bpm) e
          = AudioEngine.with_tempo (JS.Fin t) e
          /\ 20 <= t <= 300
          /\ (20 <= bpm <= 300 -> t == bpm)
          /\ (bpm < 20 -> t == 20)
          /\ (300 < bpm -> t == 300))
    /\ (forall text : string,
           Toolbar.parseInt text = JS.NaN ->
           Toolbar.bpmChange text e = e
           /\ ToolbarValidated.setBpm text e = e).
Proof.
  intro e. split.
  - intro bpm. exists (Qmax 20 (Qmin 300 bpm)).
    split; [ reflexivity | ].
    apply clamp_spec. lra.
  - intros text H.
    unfold Toolbar.bpmChange, ToolbarValidated.setBpm,
      ToolbarValidated.validateAndClampBpm.
    rewrite H. split; reflexivity.
Qed.

Lemma setTempo_clamps_toolbar_rejects_witness :
  (exists t : Q,
      AudioEngine.setTempo (JS.Fin 500) sampleEngine
      = AudioEngine.with_tempo (JS.Fin t) sampleEngine
      /\ 20 <= t <= 300
      /\ (20 <= 500 <= 300 -> t == 500)
      /\ (500 < 20 -> t == 20)
      /\ (300 < 500 -> t == 300))
  /\ Toolbar.bpmChange "fast" sampleEngine = sampleEngine
  /\ ToolbarValidated.setBpm "fast" sampleEngine = sampleEngine.
Proof.
  destruct (setTempo_clamps_toolbar_rejects sampleEngine) as [Hnum Htext].
  split; [ exact (Hnum 500) | ].
  apply (Htext "fast"%string). reflexivity.
Defined.

(** C4 fails as stated: [setTempo(NaN)] on a fresh engine, whose tempo is
    120, is not rejected; it stores NaN. *)
Lemma setTempo_stores_NaN :
  AudioEngine.tempo AudioEngine.constructor = JS.Fin 120
  /\ AudioEngine.tempo (AudioEngine.setTempo JS.NaN AudioEngine.constructor)
     = JS.NaN
  /\ AudioEngine.setTempo JS.NaN AudioEngine.constructor
     <> AudioEngine.constructor.
Proof.
  repeat split. intro H. discriminate H.
Qed.

(** What the toolbar passes on: the integer read, clamped; white space
    before the number is skipped, beyond ASCII too. *)
Lemma toolbar_bpm_examples :
  AudioEngine.tempo (ToolbarValidated.setBpm " 140" sampleEngine)
  = JS.Fin (Qmax 20 (Qmin 300 (inject_Z 140)))
  /\ AudioEngine.tempo (ToolbarValidated.setBpm "9bpm" sampleEngine)
     = JS.Fin (Qmax 20 (Qmin 300 (inject_Z 9)))
  /\ Toolbar.parseInt "-12.5" = JS.Fin (inject_Z (-12))
  /\ Toolbar.parseInt "" = JS.NaN
  /\ Toolbar.parseInt "bpm" = JS.NaN
  /\ Toolbar.parseInt (nbsp ++ "140") = JS.Fin (inject_Z 140)
  /\ Toolbar.parseInt (" " ++ emSpace ++ nbsp ++ "+7") = JS.Fin (inject_Z 7)
  /\ Toolbar.parseInt "9007199254740993" = JS.Fin (inject_Z (2 ^ 53)).
Proof. repeat split; vm_compute; reflexivity. Qed.

(** ** Doubles: rounding to the nearest, ties to even *)

(** *** Powers of two and the exponent of a number *)

Lemma pow2_pos (e : Z) : 0 < 2 ^ e.
Proof. apply Qpower_0_lt. reflexivity. Qed.

Lemma pow2_add (a b : Z) : 2 ^ (a + b) == 2 ^ a * 2 ^ b.
Proof. apply Qpower_plus. discriminate. Qed.

Lemma pow2_succ (a : Z) : 2 ^ (a + 1) == 2 * 2 ^ a.
Proof. rewrite pow2_add. change (2 ^ 1) with 2. ring. Qed.

Lemma pow2_pred (a : Z) : 2 ^ a == 2 * 2 ^ (a - 1).
Proof. rewrite <- pow2_succ. replace (a - 1 + 1)%Z with a by lia. reflexivity. Qed.

Lemma pow2_le (a b : Z) : (a <= b)%Z -> 2 ^ a <= 2 ^ b.
Proof. intro H. apply Qpower_le_compat_l; [ exact H | discriminate ]. Qed.

Lemma pow2_lt (a b : Z) : (a < b)%Z -> 2 ^ a < 2 ^ b.
Proof. intro H. apply Qpower_lt_compat_l; [ exact H | reflexivity ]. Qed.

Lemma pow2_lt_inv (a b : Z) : 2 ^ a < 2 ^ b -> (a < b)%Z.
Proof. intro H. apply (Qpower_lt_compat_l_inv 2); [ exact H | reflexivity ]. Qed.

Lemma pow2_Z (n : Z) : (0 <= n)%Z -> inject_Z (2 ^ n) == 2 ^ n.
Proof. intro H. apply (Zpower_Qpower 2 n H). Qed.

Lemma Qmult_lt_cancel_r (a b c : Q) : 0 < c -> a * c < b * c -> a < b.
Proof. intros Hc H. apply (Qmult_lt_r a b c Hc). exact H. Qed.

Lemma Qmult_le_cancel_r (a b c : Q) : 0 < c -> a * c <= b * c -> a <= b.
Proof. intros Hc H. apply (Qmult_le_r a b c Hc). exact H. Qed.

Lemma ilog2_spec (x : Q) :
  ~ x == 0 -> 2 ^ JS.ilog2 x <= Qabs x /\ Qabs x < 2 ^ (JS.ilog2 x + 1).
Proof.
  intro Hx. unfold JS.ilog2.
  set (N := Z.abs (Qnum x)). set (D := Z.pos (Qden x)).
  set (E := (Z.log2 N - Z.log2 D)%Z).
  assert (HN : (0 < N)%Z).
  { subst N. destruct x as [n d]. cbn [Qnum].
    assert (n <> 0)%Z; [ | lia ].
    intro H. apply Hx. subst n. reflexivity. }
  assert (HD : (0 < D)%Z) by (subst D; lia).
  destruct (Z.log2_spec N HN) as [Na Nb].
  destruct (Z.log2_spec D HD) as [Da Db].
  pose proof (Z.log2_nonneg N) as La. pose proof (Z.log2_nonneg D) as Lb.
  set (a := Z.log2 N) in *. set (b := Z.log2 D) in *.
  assert (Hq : inject_Z N == Qabs x * inject_Z D).
  { subst N D. destruct x as [n d]. cbn [Qnum Qden Qabs].
    rewrite (Qmake_Qdiv (Z.abs n) d). field. discriminate. }
  assert (QD : 0 < inject_Z D).
  { change 0 with (inject_Z 0). rewrite <- Zlt_Qlt. exact HD. }
  rewrite Zle_Qle, pow2_Z in Na, Da by lia.
  rewrite Zlt_Qlt in Nb, Db.
  unfold Z.succ in Nb, Db.
  rewrite pow2_Z, pow2_succ in Nb, Db by lia.
  assert (HE : 2 ^ a == 2 ^ E * 2 ^ b).
  { rewrite <- pow2_add. subst E. replace (a - b + b)%Z with a by lia.
    reflexivity. }
  pose proof (pow2_pos E) as PE. pose proof (pow2_pos b) as Pb.
  rewrite Hq in Na, Nb. rewrite HE in Na, Nb.
  destruct (Qle_bool (2 ^ E) (Qabs x)) eqn:T.
  - apply Qle_bool_iff in T. split; [ exact T | ].
    rewrite pow2_succ.
    apply (Qmult_lt_cancel_r _ _ (inject_Z D) QD).
    apply (Qlt_le_trans _ _ _ Nb).
    assert (2 ^ E * 2 ^ b <= 2 ^ E * inject_Z D)
      by (apply Qmult_le_l; assumption).
    lra.
  - apply Qle_bool_false_iff in T.
    replace (E - 1 + 1)%Z with E by lia. split; [ | exact T ].
    apply (Qmult_le_cancel_r _ _ (inject_Z D) QD).
    assert (2 ^ E * inject_Z D < 2 ^ E * (2 * 2 ^ b))
      by (apply Qmult_lt_l; assumption).
    rewrite (pow2_pred E) in H, Na. lra.
Qed.

Lemma ilog2_unique (x : Q) (e : Z) :
  2 ^ e <= Qabs x -> Qabs x < 2 ^ (e + 1) -> JS.ilog2 x = e.
Proof.
  intros Hlo Hhi.
  assert (Hx : ~ x == 0).
  { intro H. rewrite H in Hlo. pose proof (pow2_pos e).
    change (Qabs 0) with 0 in Hlo. lra. }
  destruct (ilog2_spec x Hx) as [Slo Shi].
  assert (A : 2 ^ JS.ilog2 x < 2 ^ (e + 1)) by lra.
  assert (B : 2 ^ e < 2 ^ (JS.ilog2 x + 1)) by lra.
  apply pow2_lt_inv in A. apply pow2_lt_inv in B. lia.
Qed.

Lemma Qfloor_unique (x : Q) (k : Z) :
  inject_Z k <= x -> x < inject_Z k + 1 -> Qfloor x = k.
Proof.
  intros Hlo Hhi.
  pose proof (Qfloor_le x) as H1. pose proof (Qlt_floor x) as H2.
  rewrite inject_Z_plus in H2. change (inject_Z 1) with 1 in H2.
  assert (A : inject_Z (Qfloor x) < inject_Z (k + 1))
    by (rewrite inject_Z_plus; change (inject_Z 1) with 1; lra).
  assert (B : inject_Z k < inject_Z (Qfloor x + 1))
    by (rewrite inject_Z_plus; change (inject_Z 1) with 1; lra).
  rewrite <- Zlt_Qlt in A, B. lia.
Qed.

Lemma Qfloor_bounds (x : Q) :
  inject_Z (Qfloor x) <= x /\ x < inject_Z (Qfloor x) + 1.
Proof.
  split; [ apply Qfloor_le | ].
  pose proof (Qlt_floor x) as H.
  rewrite inject_Z_plus in H. exact H.
Qed.

(** *** The nearest integer *)

Lemma inject_Z_succ (k : Z) : inject_Z (k + 1) == inject_Z k + 1.
Proof. rewrite inject_Z_plus. reflexivity. Qed.

Lemma inject_Z_pred (k : Z) : inject_Z (k - 1) == inject_Z k - 1.
Proof.
  replace (k - 1)%Z with (k + -1)%Z by lia. rewrite inject_Z_plus.
  reflexivity.
Qed.

Lemma nearest_even_spec (y : Q) : nearest_to y (JS.nearest_even y).
Proof.
  unfold nearest_to, JS.nearest_even.
  destruct (Qfloor_bounds y) as [Flo Fhi].
  set (f := Qfloor y) in *.
  destruct (Qcompare (y - inject_Z f) (1 # 2)) eqn:C.
  - apply Qeq_alt in C.
    destruct (Z.even f) eqn:Ev.
    + right. split; [ left; exact C | exact Ev ].
    + right. split.
      * right. rewrite inject_Z_succ. lra.
      * rewrite Z.even_add, Ev. reflexivity.
  - apply Qlt_alt in C. left. lra.
  - apply Qgt_alt in C. left.
    rewrite inject_Z_succ. lra.
Qed.

Lemma nearest_even_unique (y : Q) (k : Z) :
  nearest_to y k -> JS.nearest_even y = k.
Proof.
  intro H. unfold JS.nearest_even.
  destruct H as [[Hlo Hhi] | [[He | He] Ev]].
  - destruct (Qlt_le_dec y (inject_Z k)) as [L | G].
    + assert (F : Qfloor y = (k - 1)%Z).
      { apply Qfloor_unique; rewrite inject_Z_pred; lra. }
      rewrite F.
      assert (C : Qcompare (y - inject_Z (k - 1)) (1 # 2) = Gt).
      { apply (proj1 (Qgt_alt _ _)). rewrite inject_Z_pred. lra. }
      rewrite C. lia.
    + assert (F : Qfloor y = k) by (apply Qfloor_unique; lra).
      rewrite F.
      assert (C : Qcompare (y - inject_Z k) (1 # 2) = Lt)
        by (apply (proj1 (Qlt_alt _ _)); lra).
      rewrite C. reflexivity.
  - assert (F : Qfloor y = k) by (apply Qfloor_unique; lra).
    rewrite F.
    assert (C : Qcompare (y - inject_Z k) (1 # 2) = Eq)
      by (apply (proj1 (Qeq_alt _ _)); exact He).
    rewrite C, Ev. reflexivity.
  - assert (F : Qfloor y = (k - 1)%Z).
    { apply Qfloor_unique; rewrite inject_Z_pred; lra. }
    rewrite F.
    assert (C : Qcompare (y - inject_Z (k - 1)) (1 # 2) = Eq).
    { apply (proj1 (Qeq_alt _ _)). rewrite inject_Z_pred. lra. }
    rewrite C.
    replace (Z.even (k - 1)) with false; [ lia | ].
    symmetry. rewrite Z.even_sub, Ev. reflexivity.
Qed.

Lemma nearest_even_comp (x y : Q) :
  x == y -> JS.nearest_even x = JS.nearest_even y.
Proof.
  intro H. apply nearest_even_unique.
  pose proof (nearest_even_spec y) as S. unfold nearest_to in *.
  rewrite H. exact S.
Qed.

Lemma nearest_even_bounds (y : Q) :
  y - (1 # 2) <= inject_Z (JS.nearest_even y)
  /\ inject_Z (JS.nearest_even y) <= y + (1 # 2).
Proof.
  destruct (nearest_even_spec y) as [[A B] | [[E | E] _]]; split; lra.
Qed.

Lemma nearest_even_inject_Z (k : Z) : JS.nearest_even (inject_Z k) = k.
Proof. apply nearest_even_unique. left. split; lra. Qed.

Lemma nearest_even_opp (y : Q) :
  JS.nearest_even (- y) = (- JS.nearest_even y)%Z.
Proof.
  apply nearest_even_unique.
  destruct (nearest_even_spec y) as [[A B] | [[E | E] Ev]];
    unfold nearest_to; rewrite inject_Z_opp.
  - left. split; lra.
  - right. split; [ right; lra | rewrite Z.even_opp; exact Ev ].
  - right. split; [ left; lra | rewrite Z.even_opp; exact Ev ].
Qed.

Lemma nearest_even_mono (x y : Q) :
  x <= y -> (JS.nearest_even x <= JS.nearest_even y)%Z.
Proof.
  intro H.
  destruct (Z_le_gt_dec (JS.nearest_even x) (JS.nearest_even y))
    as [L | G]; [ exact L | exfalso ].
  pose proof (nearest_even_spec x) as Sx.
  pose proof (nearest_even_spec y) as Sy.
  set (a := JS.nearest_even x) in *. set (b := JS.nearest_even y) in *.
  assert (Hab : inject_Z b + 1 <= inject_Z a).
  { change 1 with (inject_Z 1). rewrite <- inject_Z_plus, <- Zle_Qle. lia. }
  unfold nearest_to in Sx, Sy.
  destruct Sx as [[A1 A2] | [[Ex | Ex] Evx]];
    destruct Sy as [[B1 B2] | [[Ey | Ey] Evy]]; try lra.
  (* x = a - 1/2, y = b + 1/2, both even, b + 1 <= a: then a = b + 1 *)
  assert (a = b + 1)%Z.
  { assert (inject_Z a <= inject_Z (b + 1))
      by (rewrite inject_Z_plus; change (inject_Z 1) with 1; lra).
    rewrite <- Zle_Qle in H0. lia. }
  subst a. rewrite H0, Z.even_add, Evy in Evx. discriminate Evx.
Qed.

(** *** The nearest double *)

Lemma Qeq_bool_false (a b : Q) : ~ a == b -> Qeq_bool a b = false.
Proof.
  intro H. destruct (Qeq_bool a b) eqn:E; [ | reflexivity ].
  apply Qeq_bool_iff in E. tauto.
Qed.

Lemma fl_eq (x : Q) :
  ~ x == 0 ->
  JS.fl x
  == inject_Z (JS.nearest_even (x / 2 ^ (JS.ilog2 x - 52)))
     * 2 ^ (JS.ilog2 x - 52).
Proof.
  intro H. unfold JS.fl. rewrite (Qeq_bool_false _ _ H).
  apply Qred_correct.
Qed.

Lemma fl_zero (x : Q) : x == 0 -> JS.fl x == 0.
Proof.
  intro H. unfold JS.fl. apply Qeq_bool_iff in H. rewrite H. reflexivity.
Qed.

Lemma ilog2_comp (x y : Q) : x == y -> ~ x == 0 -> JS.ilog2 x = JS.ilog2 y.
Proof.
  intros H Hx. symmetry. 
  destruct (ilog2_spec x Hx) as [A B].
  apply ilog2_unique; rewrite <- H; assumption.
Qed.

Lemma fl_comp (x y : Q) : x == y -> JS.fl x == JS.fl y.
Proof.
  intro H. destruct (Qeq_dec x 0) as [Z | NZ].
  - rewrite (fl_zero x Z), (fl_zero y); [ reflexivity | ].
    rewrite <- H. exact Z.
  - assert (NZy : ~ y == 0) by (rewrite <- H; exact NZ).
    rewrite (fl_eq x NZ), (fl_eq y NZy).
    rewrite (ilog2_comp x y H NZ).
    rewrite (nearest_even_comp (x / 2 ^ (JS.ilog2 y - 52))
               (y / 2 ^ (JS.ilog2 y - 52))); [ reflexivity | ].
    rewrite H. reflexivity.
Qed.

Lemma ilog2_opp (x : Q) : ~ x == 0 -> JS.ilog2 (- x) = JS.ilog2 x.
Proof.
  intro Hx. destruct (ilog2_spec x Hx) as [A B].
  apply ilog2_unique; rewrite Qabs_opp; assumption.
Qed.

Lemma fl_opp (x : Q) : JS.fl (- x) == - JS.fl x.
Proof.
  destruct (Qeq_dec x 0) as [Z | NZ].
  - rewrite (fl_zero x Z), (fl_zero (- x)); [ reflexivity | ].
    rewrite Z. reflexivity.
  - assert (NZo : ~ - x == 0) by (intro H; apply NZ; lra).
    rewrite (fl_eq x NZ), (fl_eq _ NZo), (ilog2_opp x NZ).
    set (u := 2 ^ (JS.ilog2 x - 52)).
    assert (Hu : 0 < u) by apply pow2_pos.
    rewrite (nearest_even_comp (- x / u) (- (x / u)))
      by (field; lra).
    rewrite nearest_even_opp, inject_Z_opp. ring.
Qed.

(** A positive number and the double nearest to it lie between the same
    two powers of two; the double is a significand of 53 bits times the
    unit of the last place. *)
Lemma fl_pos (x : Q) :
  0 < x ->
  let e := JS.ilog2 x in
  let m := JS.nearest_even (x / 2 ^ (e - 52)) in
  JS.fl x == inject_Z m * 2 ^ (e - 52)
  /\ (2 ^ 52 <= m <= 2 ^ 53)%Z
  /\ 2 ^ e <= x < 2 ^ (e + 1)
  /\ 2 ^ e <= JS.fl x <= 2 ^ (e + 1)
  /\ x - 2 ^ (e - 53) <= JS.fl x <= x + 2 ^ (e - 53).
Proof.
  intros Hx e m.
  assert (NZ : ~ x == 0) by lra.
  destruct (ilog2_spec x NZ) as [A B]. fold e in A, B.
  rewrite (Qabs_pos x) in A, B by lra.
  pose proof (fl_eq x NZ) as E. fold e in E. fold m in E.
  set (u := 2 ^ (e - 52)) in *.
  assert (Hu : 0 < u) by apply pow2_pos.
  assert (He : 2 ^ e == 2 ^ 52 * u).
  { subst u. rewrite <- pow2_add. replace (52 + (e - 52))%Z with e by lia.
    reflexivity. }
  assert (He1 : 2 ^ (e + 1) == 2 ^ 53 * u).
  { subst u. rewrite <- pow2_add.
    replace (53 + (e - 52))%Z with (e + 1)%Z by lia. reflexivity. }
  assert (Hh : 2 ^ (e - 53) == (1 # 2) * u).
  { subst u. rewrite (pow2_pred (e - 52)).
    replace (e - 52 - 1)%Z with (e - 53)%Z by lia. ring. }
  assert (Q1 : 2 ^ 52 <= x / u).
  { apply Qle_shift_div_l; [ exact Hu | ]. rewrite <- He. exact A. }
  assert (Q2 : x / u < 2 ^ 53).
  { apply Qlt_shift_div_r; [ exact Hu | ]. rewrite <- He1. exact B. }
  assert (M1 : (2 ^ 52 <= m)%Z).
  { rewrite <- (nearest_even_inject_Z (2 ^ 52)). apply nearest_even_mono.
    exact Q1. }
  assert (M2 : (m <= 2 ^ 53)%Z).
  { rewrite <- (nearest_even_inject_Z (2 ^ 53)). apply nearest_even_mono.
    apply Qlt_le_weak. exact Q2. }
  destruct (nearest_even_bounds (x / u)) as [N1 N2]. fold m in N1, N2.
  assert (Xu : x == x / u * u) by (field; lra).
  split; [ exact E | ]. split; [ split; assumption | ].
  split; [ split; assumption | ].
  rewrite E, He, He1, Hh.
  rewrite Zle_Qle in M1, M2.
  change (inject_Z (2 ^ 52)) with (2 ^ 52) in M1.
  change (inject_Z (2 ^ 53)) with (2 ^ 53) in M2.
  split; [ split | split ].
  - apply Qmult_le_compat_r; lra.
  - apply Qmult_le_compat_r; lra.
  - setoid_replace (x - (1 # 2) * u) with ((x / u - (1 # 2)) * u)
      by (field; lra).
    apply Qmult_le_compat_r; lra.
  - setoid_replace (x + (1 # 2) * u) with ((x / u + (1 # 2)) * u)
      by (field; lra).
    apply Qmult_le_compat_r; lra.
Qed.

Lemma fl_pos_lt (x : Q) : 0 < x -> 0 < JS.fl x.
Proof.
  intro H. destruct (fl_pos x H) as (_ & _ & _ & [A _] & _).
  pose proof (pow2_pos (JS.ilog2 x)). lra.
Qed.

Lemma fl_neg_lt (x : Q) : x < 0 -> JS.fl x < 0.
Proof.
  intro H. assert (P : 0 < - x) by lra.
  apply fl_pos_lt in P. rewrite fl_opp in P. lra.
Qed.

Lemma fl_nonneg (x : Q) : 0 <= x -> 0 <= JS.fl x.
Proof.
  intro H. destruct (Qeq_dec x 0) as [Z | NZ].
  - rewrite (fl_zero x Z). lra.
  - apply Qlt_le_weak, fl_pos_lt. lra.
Qed.

Lemma ilog2_mono (x y : Q) :
  0 < x -> x <= y -> (JS.ilog2 x <= JS.ilog2 y)%Z.
Proof.
  intros Hx Hxy.
  destruct (fl_pos x Hx) as (_ & _ & [A _] & _).
  destruct (fl_pos y ltac:(lra)) as (_ & _ & [_ B] & _).
  assert (L : 2 ^ JS.ilog2 x < 2 ^ (JS.ilog2 y + 1)) by lra.
  apply pow2_lt_inv in L. lia.
Qed.

Lemma fl_mono_pos (x y : Q) : 0 < x -> x <= y -> JS.fl x <= JS.fl y.
Proof.
  intros Hx Hxy.
  pose proof (ilog2_mono x y Hx Hxy) as He.
  destruct (fl_pos x Hx) as (Ex & _ & _ & [_ Bx] & _).
  destruct (fl_pos y ltac:(lra)) as (Ey & _ & _ & [Ay _] & _).
  destruct (Z.eq_dec (JS.ilog2 x) (JS.ilog2 y)) as [Eq | Ne].
  - rewrite Ex, Ey, Eq.
    set (u := 2 ^ (JS.ilog2 y - 52)).
    assert (Hu : 0 < u) by apply pow2_pos.
    apply Qmult_le_compat_r; [ | lra ].
    rewrite <- Zle_Qle. apply nearest_even_mono.
    apply Qmult_le_compat_r; [ exact Hxy | ].
    apply Qlt_le_weak, Qinv_lt_0_compat. exact Hu.
  - assert (L : 2 ^ (JS.ilog2 x + 1) <= 2 ^ JS.ilog2 y)
      by (apply pow2_le; lia).
    lra.
Qed.

Lemma fl_mono (x y : Q) : x <= y -> JS.fl x <= JS.fl y.
Proof.
  intro H.
  destruct (Qlt_le_dec 0 x) as [Px | Nx].
  - apply fl_mono_pos; assumption.
  - destruct (Qlt_le_dec y 0) as [Ny | Py].
    + assert (M : JS.fl (- y) <= JS.fl (- x))
        by (apply fl_mono_pos; lra).
      rewrite !fl_opp in M. lra.
    + pose proof (fl_nonneg y Py).
      assert (0 <= JS.fl (- x)) by (apply fl_nonneg; lra).
      rewrite fl_opp in H1. lra.
Qed.

(** The error of rounding is at most half a unit of the last place, which
    is at most 2^-53 of the number. *)
Lemma fl_error_pos (x : Q) :
  0 < x -> x * (1 - 2 ^ (-53)) <= JS.fl x <= x * (1 + 2 ^ (-53)).
Proof.
  intro Hx.
  destruct (fl_pos x Hx) as (_ & _ & [A _] & _ & [E1 E2]).
  set (e := JS.ilog2 x) in *.
  assert (H : 2 ^ (e - 53) == 2 ^ e * 2 ^ (-53)).
  { rewrite <- pow2_add. replace (e + -53)%Z with (e - 53)%Z by lia.
    reflexivity. }
  assert (P : 0 < 2 ^ (-53)) by reflexivity.
  assert (L : 2 ^ e * 2 ^ (-53) <= x * 2 ^ (-53))
    by (apply Qmult_le_compat_r; lra).
  rewrite H in E1, E2. split; lra.
Qed.

Lemma fl_error (x : Q) :
  Qabs (JS.fl x - x) <= Qabs x * 2 ^ (-53).
Proof.
  destruct (Qlt_le_dec 0 x) as [Px | Nx].
  - destruct (fl_error_pos x Px) as [A B].
    rewrite (Qabs_pos x) by lra. apply Qabs_Qle_condition. split; lra.
  - destruct (Qeq_dec x 0) as [Z | NZ].
    + rewrite (fl_zero x Z), Z. 
      setoid_replace (0 - 0) with 0 by ring.
      change (Qabs 0) with 0. lra.
    + assert (Px : 0 < - x) by lra.
      destruct (fl_error_pos (- x) Px) as [A B].
      rewrite fl_opp in A, B.
      rewrite (Qabs_neg x) by lra. apply Qabs_Qle_condition. split; lra.
Qed.

(** Multiplying by a power of two changes the exponent only. *)
Lemma fl_scale (x : Q) (k : Z) : JS.fl (x * 2 ^ k) == JS.fl x * 2 ^ k.
Proof.
  destruct (Qeq_dec x 0) as [Z | NZ].
  - rewrite (fl_zero x Z), (fl_zero (x * 2 ^ k)); [ ring | ].
    rewrite Z. ring.
  - pose proof (pow2_pos k) as Pk.
    assert (NZk : ~ x * 2 ^ k == 0).
    { intro H. apply Qmult_integral in H. destruct H; [ tauto | lra ]. }
    destruct (ilog2_spec x NZ) as [A B].
    assert (Ek : JS.ilog2 (x * 2 ^ k) = (JS.ilog2 x + k)%Z).
    { apply ilog2_unique; rewrite Qabs_Qmult, (Qabs_pos (2 ^ k)) by lra.
      - rewrite pow2_add. apply Qmult_le_compat_r; lra.
      - replace (JS.ilog2 x + k + 1)%Z with (JS.ilog2 x + 1 + k)%Z by lia.
        rewrite pow2_add. apply Qmult_lt_compat_r; assumption. }
    rewrite (fl_eq x NZ), (fl_eq _ NZk), Ek.
    replace (JS.ilog2 x + k - 52)%Z with (JS.ilog2 x - 52 + k)%Z by lia.
    pose proof (pow2_add (JS.ilog2 x - 52) k) as Hp.
    set (u := 2 ^ (JS.ilog2 x - 52)) in *.
    set (uk := 2 ^ (JS.ilog2 x - 52 + k)) in *.
    assert (Hu : 0 < u) by apply pow2_pos.
    rewrite (nearest_even_comp (x * 2 ^ k / uk) (x / u))
      by (rewrite Hp; field; split; lra).
    rewrite Hp. ring.
Qed.

Lemma fl_idem (x : Q) : JS.fl (JS.fl x) == JS.fl x.
Proof.
  assert (P : forall z, 0 < z -> JS.fl (JS.fl z) == JS.fl z).
  { intros z Hz.
    destruct (fl_pos z Hz) as (E & [M1 M2] & _).
    set (e := JS.ilog2 z) in *.
    set (m := JS.nearest_even (z / 2 ^ (e - 52))) in *.
    rewrite (fl_comp _ _ E), fl_scale, E.
    apply Qmult_comp; [ | reflexivity ].
    assert (Pm : 0 < inject_Z m).
    { change 0 with (inject_Z 0). rewrite <- Zlt_Qlt. lia. }
    destruct (Z.eq_dec m (2 ^ 53)) as [Top | NTop].
    - rewrite Top.
      change (inject_Z (2 ^ 53)) with (1 * 2 ^ 53).
      rewrite fl_scale. vm_compute. reflexivity.
    - assert (L : JS.ilog2 (inject_Z m) = 52%Z).
      { apply ilog2_unique; rewrite Qabs_pos by lra.
        - change (2 ^ 52) with (inject_Z (2 ^ 52)). rewrite <- Zle_Qle.
          exact M1.
        - change (2 ^ (52 + 1)) with (inject_Z (2 ^ 53)).
          rewrite <- Zlt_Qlt. lia. }
      rewrite fl_eq by lra. rewrite L.
      change (2 ^ (52 - 52)) with 1.
      rewrite (nearest_even_comp (inject_Z m / 1) (inject_Z m))
        by (field).
      rewrite nearest_even_inject_Z. ring. }
  destruct (Qlt_le_dec 0 x) as [Px | Nx]; [ apply P; exact Px | ].
  destruct (Qeq_dec x 0) as [Z | NZ].
  - rewrite (fl_comp _ _ (fl_zero x Z)). rewrite (fl_zero x Z).
    apply fl_zero. reflexivity.
  - assert (Px : 0 < - x) by lra.
    pose proof (P _ Px) as H. rewrite (fl_comp _ _ (fl_opp x)) in H.
    rewrite !fl_opp in H. lra.
Qed.

(** Integers of at most 53 bits are doubles. *)
Lemma fl_inject_Z (k : Z) :
  (Z.abs k <= 2 ^ 53)%Z -> JS.fl (inject_Z k) == inject_Z k.
Proof.
  assert (P : forall n, (0 < n <= 2 ^ 53)%Z ->
                        JS.fl (inject_Z n) == inject_Z n).
  { intros n [Hn Hb].
    assert (Pn : 0 < inject_Z n).
    { change 0 with (inject_Z 0). rewrite <- Zlt_Qlt. exact Hn. }
    destruct (fl_pos _ Pn) as (E & _ & [A B] & _).
    set (e := JS.ilog2 (inject_Z n)) in *.
    assert (He : (0 <= e <= 53)%Z).
    { split.
      - assert (L : 2 ^ 0 < 2 ^ (e + 1)).
        { apply (Qle_lt_trans _ (inject_Z n)); [ | exact B ].
          change (2 ^ 0) with (inject_Z 1). rewrite <- Zle_Qle. lia. }
        apply pow2_lt_inv in L. lia.
      - assert (L : 2 ^ e < 2 ^ (53 + 1)).
        { apply (Qle_lt_trans _ (inject_Z n)); [ exact A | ].
          change (2 ^ (53 + 1)) with (inject_Z (2 ^ 54)).
          rewrite <- Zlt_Qlt. lia. }
        apply pow2_lt_inv in L. lia. }
    rewrite E.
    destruct (Z.eq_dec e 53) as [E53 | N53].
    - (* n = 2^53 *)
      assert (n = 2 ^ 53)%Z.
      { rewrite E53 in A. change (2 ^ 53) with (inject_Z (2 ^ 53)) in A.
        rewrite <- Zle_Qle in A. lia. }
      subst n. rewrite E53. vm_compute. reflexivity.
    - rewrite (nearest_even_comp (inject_Z n / 2 ^ (e - 52))
                 (inject_Z (n * 2 ^ (52 - e)))).
      + rewrite nearest_even_inject_Z, inject_Z_mult.
        rewrite pow2_Z by lia.
        rewrite <- Qmult_assoc, <- pow2_add.
        replace (52 - e + (e - 52))%Z with 0%Z by lia.
        change (2 ^ 0) with 1. ring.
      + rewrite inject_Z_mult, pow2_Z by lia.
        replace (e - 52)%Z with (- (52 - e))%Z by lia.
        rewrite Qpower_opp. field.
        apply Qpower_not_0. discriminate. }
  intro H.
  destruct (Z.lt_trichotomy k 0) as [N | [Z | Pk]].
  - assert (E : inject_Z k == - inject_Z (- k))
      by (rewrite inject_Z_opp; ring).
    rewrite (fl_comp _ _ E), fl_opp, P by lia.
    rewrite inject_Z_opp. ring.
  - subst k. reflexivity.
  - apply P. lia.
Qed.

Lemma fl_nonzero (x : Q) : ~ x == 0 -> ~ JS.fl x == 0.
Proof.
  intros H E.
  destruct (Qlt_le_dec 0 x) as [P | N].
  - pose proof (fl_pos_lt x P). lra.
  - assert (L : x < 0).
    { destruct (Qeq_dec x 0); [ tauto | ]. lra. }
    pose proof (fl_neg_lt x L). lra.
Qed.

Lemma pow2_m53 : 2 ^ (-53) == 1 # 9007199254740992.
Proof. reflexivity. Qed.

Lemma Qabs_div_le (d i b : Q) :
  ~ i == 0 -> Qabs d <= b * Qabs i -> Qabs (d / i) <= b.
Proof.
  intros Hi H.
  assert (Pi : 0 < Qabs i).
  { pose proof (Qabs_nonneg i) as N.
    destruct (Qeq_dec (Qabs i) 0) as [Z | NZ]; [ | lra ].
    exfalso. apply Hi.
    destruct (Qabs_Qle_condition i 0) as [C _].
    destruct C as [C1 C2]; [ lra | lra ]. }
  unfold Qdiv. rewrite Qabs_Qmult, Qabs_Qinv.
  apply Qle_shift_div_r; assumption.
Qed.

(** Going to a grid point and back to its number: the quotient of the
    rounded product [k * i] by [i] rounds to [k] again as long as [k] has
    fewer than 52 bits. *)
Lemma snap_steps_stable (i : Q) (k : Z) :
  ~ i == 0 -> (Z.abs k < 2 ^ 51)%Z ->
  JS.round (JS.fl (JS.fl (inject_Z k * i) / i)) = k.
Proof.
  intros Hi Hk.
  set (K := inject_Z k).
  assert (Ha : Qabs K <= 2251799813685247).
  { subst K. unfold inject_Z. rewrite <- Zabs_Qabs.
    change (Z.abs k # 1) with (inject_Z (Z.abs k)).
    change 2251799813685247 with (inject_Z 2251799813685247).
    rewrite <- Zle_Qle. lia. }
  pose proof (Qabs_nonneg K) as Hn.
  set (a := Qabs K) in *.
  set (r := JS.fl (K * i)).
  pose proof (fl_error (K * i)) as E1. fold r in E1.
  rewrite Qabs_Qmult, pow2_m53 in E1. fold a in E1.
  assert (A : Qabs (r / i - K) <= a * (1 # 9007199254740992)).
  { setoid_replace (r / i - K) with ((r - K * i) / i) by (field; exact Hi).
    apply Qabs_div_le; [ exact Hi | ]. lra. }
  pose proof (fl_error (r / i)) as E2. rewrite pow2_m53 in E2.
  set (q := JS.fl (r / i)) in *.
  assert (B : Qabs (r / i) <= a + a * (1 # 9007199254740992)).
  { setoid_replace (r / i) with (K + (r / i - K)) by ring.
    eapply Qle_trans; [ apply Qabs_triangle | ]. fold a. lra. }
  assert (C : Qabs (q - K) < 1 # 2).
  { setoid_replace (q - K) with ((q - r / i) + (r / i - K)) by ring.
    eapply Qle_lt_trans; [ apply Qabs_triangle | ].
    set (x := Qabs (q - r / i)) in *. set (y := Qabs (r / i - K)) in *.
    set (z := Qabs (r / i)) in *. lra. }
  apply Qabs_Qlt_condition in C. destruct C as [C1 C2].
  unfold JS.round. apply Qfloor_unique; fold K; lra.
Qed.

(** *** Agreement with binary64 *)

(** On the samples, [JS.fl] after the exact operation is the operation of
    binary64. *)
Lemma fl_is_binary64_on_samples : binary64_agrees = true.
Proof. vm_compute. reflexivity. Qed.

(** So are the beat counts of 54 s at tempo 130 and of 2397.6 s at tempo
    100, the number of grid steps of 7.5 s at tempo 29, and
    [mapRange(0.7, 0.1, 0.7, 0.2, 0.9)]. *)
Lemma rounded_examples_in_binary64 :
  same_number (binary64_totalBeats (float_of_Z 130) (float_of_Z 54))
    (AudioEngine.totalBeats 130 54)
  = true
  /\ same_number (binary64_totalBeats (float_of_Z 100) (float_ratio 23976 10))
       (AudioEngine.totalBeats 100 (JS.fl (23976 # 10)))
     = true
  /\ same_number (binary64_snapQuotient (float_of_Z 29) (float_ratio 15 2))
       (JS.fl ((15 # 2) / JS.fl (JS.fl (60 / 29) * (1 # 4))))
     = true
  /\ match
       Helpers.mapRange (JS.fl (7 # 10)) (JS.fl (1 # 10)) (JS.fl (7 # 10))
         (JS.fl (2 # 10)) (JS.fl (9 # 10))
     with
     | JS.Fin y =>
         same_number
           (binary64_mapRange (float_ratio 7 10) (float_ratio 1 10)
              (float_ratio 7 10) (float_ratio 2 10) (float_ratio 9 10))
           y
     | JS.NaN => false
     end
     = true.
Proof. repeat split; vm_compute; reflexivity. Qed.

(** ** Grid snapping *)

Lemma round_inject_Z (k : Z) : JS.round (inject_Z k) = k.
Proof.
  unfold JS.round. apply Qfloor_unique; lra.
Qed.

Lemma snapTime_Fin (tl : Timeline.t) (e : AudioEngine.t) (bpm t : Q) :
  AudioEngine.tempo e = JS.Fin bpm ->
  ~ bpm == 0 ->
  ~ Timeline.gridSize tl == 0 ->
  let interval := JS.fl (JS.fl (60 / bpm) * Timeline.gridSize tl) in
  ~ interval == 0
  /\ Timeline.snapTime tl e (JS.Fin t)
     = JS.Fin (JS.fl (inject_Z (JS.round (JS.fl (t / interval))) * interval)).
Proof.
  intros Htempo Hbpm Hgrid interval.
  assert (Hi : ~ interval == 0).
  { subst interval. apply fl_nonzero. intro H.
    apply Qmult_integral in H. destruct H as [H | H]; [ | tauto ].
    revert H. apply fl_nonzero. intro H.
    unfold Qdiv in H. apply Qmult_integral in H.
    destruct H as [H | H]; [ discriminate H | ].
    apply Hbpm. rewrite <- (Qinv_involutive bpm), H. reflexivity. }
  split; [ exact Hi | ].
  unfold Timeline.snapTime. rewrite Htempo.
  cbn [JS.div]. rewrite (Qeq_bool_false _ _ Hbpm).
  cbn [JS.mul JS.lift2 JS.div]. fold interval.
  rewrite (Qeq_bool_false _ _ Hi). reflexivity.
Qed.

(** With a grid fraction of zero the interval is zero and every snap is
    NaN, whatever the tempo. *)
Lemma snapTime_zero_grid (tl : Timeline.t) (e : AudioEngine.t)
  (time : JS.number) :
  Timeline.gridSize tl == 0 -> Timeline.snapTime tl e time = JS.NaN.
Proof.
  intro Hg. unfold Timeline.snapTime.
  destruct (AudioEngine.tempo e) as [bpm | ]; cbn [JS.div];
    [ | destruct time; reflexivity ].
  destruct (Qeq_bool bpm 0); cbn [JS.mul JS.lift2];
    [ destruct time; reflexivity | ].
  assert (Z : Qeq_bool (JS.fl (JS.fl (60 / bpm) * Timeline.gridSize tl)) 0
              = true).
  { apply Qeq_bool_iff, fl_zero. rewrite Hg. ring. }
  destruct time as [t | ]; cbn [JS.div]; [ | reflexivity ].
  rewrite Z. reflexivity.
Qed.

(** C6, as the code has it: at a tempo in [20, 300] and with a grid
    fraction of ordinary size, [snapTime t] is
    [round (t / interval) * interval] in double arithmetic, for
    [interval = 60 / tempo * gridSize], and snapping is idempotent for every
    time that lies fewer than 2^51 grid steps from zero.  With a grid
    fraction of zero, [snapTime t] is NaN, and so is the snap of it. *)
Theorem snapTime_idempotent_below_2p51_steps :
  forall (tl : Timeline.t) (e : AudioEngine.t) (bpm t : Q),
    AudioEngine.tempo e = JS.Fin bpm ->
    20 <= bpm <= 300 ->
    (Timeline.gridSize tl == 0 ->
     Timeline.snapTime tl e (JS.Fin t) = JS.NaN
     /\ Timeline.snapTime tl e (Timeline.snapTime tl e (JS.Fin t)) = JS.NaN)
    /\ (2 ^ (-900) <= Qabs (Timeline.gridSize tl) <= 2 ^ 900 ->
        let interval := JS.fl (JS.fl (60 / bpm) * Timeline.gridSize tl) in
        let steps := JS.round (JS.fl (t / interval)) in
        (Z.abs steps < 2 ^ 51)%Z ->
        Timeline.snapTime tl e (JS.Fin t)
        = JS.Fin (JS.fl (inject_Z steps * interval))
        /\ JS.num_eq
             (Timeline.snapTime tl e (Timeline.snapTime tl e (JS.Fin t)))
             (Timeline.snapTime tl e (JS.Fin t))
           = true).
Proof.
  intros tl e bpm t Htempo Hrange. split.
  - intro Hg. rewrite !snapTime_zero_grid by exact Hg. split; reflexivity.
  - intros [Hlo _] interval steps Hsteps.
    assert (Hbpm : ~ bpm == 0) by (intro H; lra).
    assert (Hgrid : ~ Timeline.gridSize tl == 0).
    { intro H. rewrite H in Hlo. change (Qabs 0) with 0 in Hlo.
      pose proof (pow2_pos (-900)). lra. }
    destruct (snapTime_Fin tl e bpm t Htempo Hbpm Hgrid) as [Hi Hs].
    fold interval in Hi, Hs. fold steps in Hs.
    split; [ exact Hs | ].
    rewrite Hs.
    destruct (snapTime_Fin tl e bpm
                (JS.fl (inject_Z steps * interval))
                Htempo Hbpm Hgrid) as [_ Hs2].
    fold interval in Hs2. rewrite Hs2.
    rewrite (snap_steps_stable interval steps Hi Hsteps).
    cbn [JS.num_eq]. apply Qeq_bool_iff. reflexivity.
Qed.

Lemma snapTime_idempotent_below_2p51_steps_witness :
  JS.num_eq
    (Timeline.snapTime Timeline.constructor AudioEngine.constructor
       (Timeline.snapTime Timeline.constructor AudioEngine.constructor
          (JS.Fin (37 # 100))))
    (Timeline.snapTime Timeline.constructor AudioEngine.constructor
       (JS.Fin (37 # 100)))
  = true.
Proof.
  destruct (snapTime_idempotent_below_2p51_steps Timeline.constructor
              AudioEngine.constructor 120 (37 # 100)) as [_ H].
  - reflexivity.
  - split; vm_compute; discriminate.
  - apply H.
    + split; vm_compute; discriminate.
    + vm_compute. reflexivity.
Defined.

(** C6 fails as stated: at tempo 29 and with the grid of a quarter of a
    beat, the double 2265740098072430.5 lies 4380430856273366 grid steps
    from zero, between 2^51 and 2^52; it snaps to 2265740098072431, and
    that snaps to 2265740098072431.5. *)
Lemma snapTime_not_idempotent_far_out :
  AudioEngine.tempo tempo29 = JS.Fin 29
  /\ JS.fl (4531480196144861 # 2) == 4531480196144861 # 2
  /\ Timeline.snapTime Timeline.constructor tempo29
       (JS.Fin (4531480196144861 # 2))
     = JS.Fin 2265740098072431
  /\ Timeline.snapTime Timeline.constructor tempo29
       (JS.Fin 2265740098072431)
     = JS.Fin (4531480196144863 # 2)
  /\ JS.num_eq
       (Timeline.snapTime Timeline.constructor tempo29
          (Timeline.snapTime Timeline.constructor tempo29
             (JS.Fin (4531480196144861 # 2))))
       (Timeline.snapTime Timeline.constructor tempo29
          (JS.Fin (4531480196144861 # 2)))
     = false.
Proof. repeat split; vm_compute; reflexivity. Qed.

(** At tempo 120 the grid is an eighth of a second: 0.37 snaps to 3/8.
    At tempo 29 the time 7.5 is 14.5 grid intervals of 15/29 s; the
    interval and the quotient are rounded, the quotient to
    14.499999999999998, and 7.5 snaps to step 14. *)
Example snapTime_example :
  Timeline.snapTime Timeline.constructor AudioEngine.constructor
    (JS.Fin (37 # 100))
  = JS.Fin (3 # 8)
  /\ JS.round
       (JS.fl ((15 # 2) / JS.fl (JS.fl (60 / 29) * (1 # 4)))) = 14%Z
  /\ Timeline.snapTime Timeline.constructor tempo29 (JS.Fin (15 # 2))
     = JS.Fin (JS.fl (14 * JS.fl (JS.fl (60 / 29) * (1 # 4)))).
Proof. repeat split; vm_compute; reflexivity. Qed.

(** ** Position display *)

Lemma formatTime_Fin (e : AudioEngine.t) (bpm seconds : Q) :
  AudioEngine.tempo e = JS.Fin bpm ->
  let tb := AudioEngine.totalBeats bpm seconds in
  AudioEngine.formatTime seconds e
  = (AudioEngine.pad 3 (AudioEngine.bars tb) ++ ":"
       ++ AudioEngine.pad 2 (AudioEngine.beats tb) ++ ":"
       ++ AudioEngine.pad 3 (AudioEngine.ticks tb))%string.
Proof.
  intro H. unfold AudioEngine.formatTime. rewrite H. reflexivity.
Qed.

(** The scenarios of the specification at tempo 120; then two times whose
    beat count is rounded: 54 s at tempo 130 is 116.99999999999999 beats,
    and the double nearest to 2397.6 s at tempo 100 is 3996 beats. *)
Lemma formatTime_examples :
  AudioEngine.formatTime 0 AudioEngine.constructor = "001:01:000"%string
  /\ AudioEngine.formatTime 2 AudioEngine.constructor = "002:01:000"%string
  /\ AudioEngine.formatTime (5 # 4) AudioEngine.constructor
     = "001:03:500"%string
  /\ AudioEngine.formatTime 0
       (AudioEngine.setTempo JS.NaN AudioEngine.constructor)
     = "NaN:NaN:NaN"%string
  /\ AudioEngine.formatTime 54
       (AudioEngine.setTempo (JS.Fin 130) AudioEngine.constructor)
     = "030:01:999"%string
  /\ AudioEngine.formatTime (JS.fl (23976 # 10))
       (AudioEngine.setTempo (JS.Fin 100) AudioEngine.constructor)
     = "1000:01:000"%string.
Proof. repeat split; vm_compute; reflexivity. Qed.

(** *** The beat count *)

Lemma totalBeats_double (bpm seconds : Q) :
  JS.fl (AudioEngine.totalBeats bpm seconds)
  == AudioEngine.totalBeats bpm seconds.
Proof. unfold AudioEngine.totalBeats. apply fl_idem. Qed.

Lemma beatsPerSecond_nonneg (bpm : Q) : 0 <= bpm -> 0 <= JS.fl (bpm / 60).
Proof.
  intro H. apply fl_nonneg. change (bpm / 60) with (bpm * (1 # 60)). lra.
Qed.

Lemma totalBeats_nonneg (bpm seconds : Q) :
  0 <= bpm -> 0 <= seconds -> 0 <= AudioEngine.totalBeats bpm seconds.
Proof.
  intros Hb Hs. unfold AudioEngine.totalBeats. apply fl_nonneg.
  apply Qmult_le_0_compat; [ exact Hs | apply beatsPerSecond_nonneg, Hb ].
Qed.

Lemma totalBeats_mono (bpm s1 s2 : Q) :
  0 <= bpm -> s1 <= s2 ->
  AudioEngine.totalBeats bpm s1 <= AudioEngine.totalBeats bpm s2.
Proof.
  intros Hb H. unfold AudioEngine.totalBeats. apply fl_mono.
  apply Qmult_le_compat_r; [ exact H | apply beatsPerSecond_nonneg, Hb ].
Qed.

(** *** Bars, beats and ticks through the integer part of the beat count *)

Lemma trunc_nonneg (x : Q) : 0 <= x -> JS.trunc x = Qfloor x.
Proof.
  intro H. unfold JS.trunc. apply Qle_bool_iff in H. rewrite H. reflexivity.
Qed.

Lemma inject_Z_div_mod (F : Z) :
  inject_Z F == 4 * inject_Z (F / 4) + inject_Z (F mod 4)
  /\ 0 <= inject_Z (F mod 4) <= 3.
Proof.
  pose proof (Z.div_mod F 4 ltac:(lia)) as E.
  pose proof (Z.mod_pos_bound F 4 ltac:(lia)) as [Hlo Hhi].
  split.
  - rewrite E at 1. rewrite inject_Z_plus, inject_Z_mult. reflexivity.
  - split.
    + change 0 with (inject_Z 0). rewrite <- Zle_Qle. exact Hlo.
    + change 3 with (inject_Z 3). rewrite <- Zle_Qle. lia.
Qed.

(** The fractional part of a double stays at least 2^-53 below 1. *)
Lemma frac_of_double (x : Q) :
  JS.fl x == x -> 0 <= x ->
  x - inject_Z (Qfloor x) <= 1 - (1 # 9007199254740992).
Proof.
  intros Hd Hx.
  destruct (Qfloor_bounds x) as [Flo Fhi].
  destruct (Qeq_dec x 0) as [Z | NZ].
  { rewrite (Qfloor_comp _ _ Z). rewrite Z. vm_compute. discriminate. }
  assert (Px : 0 < x) by lra.
  destruct (fl_pos x Px) as (E & [M1 M2] & [A B] & _).
  rewrite Hd in E.
  set (e := JS.ilog2 x) in *.
  set (m := JS.nearest_even (x / 2 ^ (e - 52))) in *.
  set (F := Qfloor x) in *.
  destruct (Z_le_gt_dec 52 e) as [Big | Small].
  - (* a whole number *)
    assert (Ex : x == inject_Z (m * 2 ^ (e - 52))).
    { rewrite inject_Z_mult, pow2_Z by lia. exact E. }
    assert (EF : F = (m * 2 ^ (e - 52))%Z).
    { subst F. rewrite (Qfloor_comp _ _ Ex). apply Qfloor_Z. }
    rewrite EF, <- Ex. lra.
  - destruct (Z_le_gt_dec 0 e) as [Pos | Neg].
    + (* a whole number of units 2^-j, with j from 1 to 52 *)
      set (j := (52 - e)%Z).
      assert (EJ : 2 ^ (e - 52) * 2 ^ j == 1).
      { rewrite <- pow2_add. subst j.
        replace (e - 52 + (52 - e))%Z with 0%Z by lia. reflexivity. }
      pose proof (pow2_pos j) as PJ.
      assert (LJ : 2 ^ j <= 2 ^ 52) by (apply pow2_le; lia).
      assert (Em : x * 2 ^ j == inject_Z m).
      { rewrite E, <- Qmult_assoc, EJ. ring. }
      assert (En : (x - inject_Z F) * 2 ^ j
                   == inject_Z (m - F * 2 ^ j)).
      { unfold Z.sub. rewrite inject_Z_plus, inject_Z_opp, inject_Z_mult.
        rewrite pow2_Z by lia. rewrite <- Em. ring. }
      assert (Hn : (m - F * 2 ^ j <= 2 ^ j - 1)%Z).
      { assert (L : inject_Z (m - F * 2 ^ j) < inject_Z (2 ^ j)).
        { rewrite <- En, pow2_Z by lia.
          setoid_replace (2 ^ j) with (1 * 2 ^ j) at 2 by ring.
          apply Qmult_lt_compat_r; lra. }
        rewrite <- Zlt_Qlt in L. lia. }
      rewrite Zle_Qle in Hn. rewrite <- En in Hn.
      unfold Z.sub in Hn. rewrite inject_Z_plus, pow2_Z in Hn by lia.
      change (inject_Z (- (1))) with (- (1)) in Hn.
      apply (Qmult_le_cancel_r _ _ (2 ^ j) PJ).
      change (2 ^ 52) with 4503599627370496 in LJ. lra.
    + (* below 1 *)
      assert (L1 : 2 ^ (e + 1) <= 2 ^ 0) by (apply pow2_le; lia).
      change (2 ^ 0) with 1 in L1.
      assert (EF : F = 0%Z)
        by (apply Qfloor_unique; change (inject_Z 0) with 0; lra).
      rewrite EF. change (inject_Z 0) with 0.
      destruct (Z.eq_dec e (-1)) as [E1 | N1].
      * rewrite E1 in E. change (2 ^ (-1 - 52)) with (1 # 9007199254740992) in E.
        assert (Hm : (m <= 2 ^ 53 - 1)%Z).
        { assert (L : inject_Z m < inject_Z (2 ^ 53)).
          { change (inject_Z (2 ^ 53)) with 9007199254740992. lra. }
          rewrite <- Zlt_Qlt in L. lia. }
        rewrite Zle_Qle in Hm.
        change (inject_Z (2 ^ 53 - 1)) with 9007199254740991 in Hm. lra.
      * assert (L2 : 2 ^ (e + 1) <= 2 ^ (-1)) by (apply pow2_le; lia).
        change (2 ^ (-1)) with (1 # 2) in L2. lra.
Qed.

(** Below 2^53 beats, the bar and the beat are the quotient and the
    remainder by four of the whole beats elapsed, and the tick is at most
    999. *)
Lemma bars_beats_ticks_spec (tb : Q) :
  JS.fl tb == tb ->
  0 <= tb ->
  tb < 9007199254740992 ->
  let F := Qfloor tb in
  AudioEngine.bars tb = (F / 4 + 1)%Z
  /\ AudioEngine.beats tb = (F mod 4 + 1)%Z
  /\ AudioEngine.ticks tb = Qfloor (JS.fl ((tb - inject_Z F) * 1000))
  /\ (0 <= AudioEngine.ticks tb <= 999)%Z.
Proof.
  intros Hd Htb Hbig F.
  destruct (Qfloor_bounds tb) as [Flo Fhi]. fold F in Flo, Fhi.
  destruct (inject_Z_div_mod F) as (EF & Rlo & Rhi).
  assert (HF : (0 <= F < 2 ^ 53)%Z).
  { assert (A : inject_Z (-1) < inject_Z F)
      by (change (inject_Z (-1)) with (-1); lra).
    assert (B : inject_Z F < inject_Z (2 ^ 53))
      by (change (inject_Z (2 ^ 53)) with 9007199254740992; lra).
    rewrite <- Zlt_Qlt in A, B. lia. }
  pose proof (Z.div_mod F 4 ltac:(lia)) as Edm.
  pose proof (Z.mod_pos_bound F 4 ltac:(lia)) as Rm.
  assert (Hq : JS.fl (tb / 4) == tb / 4).
  { assert (E4 : tb / 4 == tb * 2 ^ (-2)) by (vm_compute (2 ^ (-2)); field).
    rewrite (fl_comp _ _ E4), fl_scale, Hd. reflexivity. }
  assert (HB : Qfloor (tb / 4) = (F / 4)%Z).
  { apply Qfloor_unique; change (tb / 4) with (tb * (1 # 4)); lra. }
  assert (Hr4 : JS.rem tb 4 == tb - 4 * inject_Z (F / 4)).
  { unfold JS.rem. rewrite trunc_nonneg, HB; [ reflexivity | ].
    change (tb / 4) with (tb * (1 # 4)). lra. }
  assert (Hr1 : JS.rem tb 1 == tb - inject_Z F).
  { unfold JS.rem.
    assert (E1 : tb / 1 == tb) by (change (tb / 1) with (tb * 1); ring).
    rewrite trunc_nonneg by lra.
    rewrite (Qfloor_comp _ _ E1). fold F. ring. }
  assert (Hsucc : forall n : Z, (0 <= n < 2 ^ 53)%Z ->
            Qfloor (JS.fl (inject_Z n + 1)) = (n + 1)%Z).
  { intros n Hn.
    assert (E : inject_Z n + 1 == inject_Z (n + 1))
      by (rewrite inject_Z_succ; reflexivity).
    rewrite (Qfloor_comp _ _ (fl_comp _ _ E)).
    rewrite (Qfloor_comp _ _ (fl_inject_Z (n + 1) ltac:(lia))).
    apply Qfloor_Z. }
  assert (Ht : AudioEngine.ticks tb
               = Qfloor (JS.fl ((tb - inject_Z F) * 1000))).
  { unfold AudioEngine.ticks. apply Qfloor_comp, fl_comp.
    rewrite Hr1. reflexivity. }
  split.
  { unfold AudioEngine.bars. rewrite (Qfloor_comp _ _ Hq), HB.
    apply Hsucc. lia. }
  split.
  { unfold AudioEngine.beats. rewrite (Qfloor_comp _ _ Hr4).
    replace (Qfloor (tb - 4 * inject_Z (F / 4))) with (F mod 4)%Z
      by (symmetry; apply Qfloor_unique; lra).
    apply Hsucc. lia. }
  split; [ exact Ht | ].
  rewrite Ht.
  pose proof (frac_of_double tb Hd Htb) as Hfrac. fold F in Hfrac.
  assert (Lo : 0 <= JS.fl ((tb - inject_Z F) * 1000))
    by (apply fl_nonneg; lra).
  assert (Hi : JS.fl ((tb - inject_Z F) * 1000)
               <= JS.fl ((1 - (1 # 9007199254740992)) * 1000))
    by (apply fl_mono; lra).
  assert (Top : JS.fl ((1 - (1 # 9007199254740992)) * 1000) < 1000)
    by (vm_compute; reflexivity).
  destruct (Qfloor_bounds (JS.fl ((tb - inject_Z F) * 1000))) as [Tlo Thi].
  set (T := Qfloor (JS.fl ((tb - inject_Z F) * 1000))) in *.
  assert (A : inject_Z (-1) < inject_Z T)
    by (change (inject_Z (-1)) with (-1); lra).
  assert (B : inject_Z T < inject_Z 1000)
    by (change (inject_Z 1000) with 1000; lra).
  rewrite <- Zlt_Qlt in A, B. lia.
Qed.

(** Bars, beats and ticks grow with the beat count, in lexicographic
    order. *)
Lemma bars_beats_ticks_mono (tb1 tb2 : Q) :
  JS.fl tb1 == tb1 -> JS.fl tb2 == tb2 ->
  0 <= tb1 -> tb1 <= tb2 -> tb2 < 9007199254740992 ->
  (AudioEngine.bars tb1 < AudioEngine.bars tb2)%Z
  \/ (AudioEngine.bars tb1 = AudioEngine.bars tb2
      /\ ((AudioEngine.beats tb1 < AudioEngine.beats tb2)%Z
          \/ (AudioEngine.beats tb1 = AudioEngine.beats tb2
              /\ (AudioEngine.ticks tb1 <= AudioEngine.ticks tb2)%Z))).
Proof.
  intros D1 D2 H1 H12 Hbig.
  destruct (bars_beats_ticks_spec tb1 D1 H1 ltac:(lra)) as (B1 & E1 & T1 & _).
  destruct (bars_beats_ticks_spec tb2 D2 ltac:(lra) Hbig)
    as (B2 & E2 & T2 & _).
  pose proof (Qfloor_resp_le _ _ H12) as HF.
  rewrite B1, B2, E1, E2.
  set (F1 := Qfloor tb1) in *. set (F2 := Qfloor tb2) in *.
  destruct (Z.eq_dec F1 F2) as [EF | NF].
  - right. rewrite EF. split; [ reflexivity | ]. right.
    split; [ reflexivity | ].
    rewrite T1, T2. fold F1 F2. rewrite EF.
    apply Qfloor_resp_le, fl_mono. lra.
  - pose proof (Z.div_mod F1 4 ltac:(lia)).
    pose proof (Z.div_mod F2 4 ltac:(lia)).
    pose proof (Z.mod_pos_bound F1 4 ltac:(lia)).
    pose proof (Z.mod_pos_bound F2 4 ltac:(lia)).
    destruct (Z_lt_le_dec (F1 / 4) (F2 / 4)) as [Hlt | Hge];
      [ left; lia | ].
    right. split; [ lia | ]. left. lia.
Qed.

Lemma bars_beats_ticks_range (tb : Q) :
  JS.fl tb == tb -> 0 <= tb -> tb < 9007199254740992 ->
  (AudioEngine.bars tb <= 999)%Z ->
  tb < 3996
  /\ (1 <= AudioEngine.bars tb <= 999)%Z
  /\ (1 <= AudioEngine.beats tb <= 4)%Z
  /\ (0 <= AudioEngine.ticks tb <= 999)%Z.
Proof.
  intros Hd Hlo Hbig Hbar.
  destruct (bars_beats_ticks_spec tb Hd Hlo Hbig) as (B & E & _ & T).
  destruct (Qfloor_bounds tb) as [Flo Fhi].
  set (F := Qfloor tb) in *.
  assert (A : inject_Z (-1) < inject_Z F)
    by (change (inject_Z (-1)) with (-1); lra).
  rewrite <- Zlt_Qlt in A.
  pose proof (Z.div_mod F 4 ltac:(lia)).
  pose proof (Z.mod_pos_bound F 4 ltac:(lia)).
  assert (0 <= F / 4)%Z by (apply Z.div_pos; lia).
  rewrite B in Hbar.
  assert (HF : (F <= 3995)%Z) by lia.
  rewrite Zle_Qle in HF. change (inject_Z 3995) with 3995 in HF.
  rewrite B, E. repeat split; try lia. lra.
Qed.

(** *** Zero-padded decimal fields and the order of strings *)

Lemma below_spec (bound : nat) (p : Z -> bool) (n : Z) :
  below bound p = true -> (0 <= n < Z.of_nat bound)%Z -> p n = true.
Proof.
  unfold below. rewrite forallb_forall. intros H Hn.
  rewrite <- (Z2Nat.id n) by lia. apply H. apply in_seq. lia.
Qed.

Lemma pad3_table :
  below 1000 (fun n => String.eqb (AudioEngine.pad 3 n) (digits3 n)) = true.
Proof. vm_compute. reflexivity. Qed.

Lemma pad2_table :
  below 100 (fun n => String.eqb (AudioEngine.pad 2 n) (digits2 n)) = true.
Proof. vm_compute. reflexivity. Qed.

Lemma pad3_digits (n : Z) :
  (0 <= n < 1000)%Z -> AudioEngine.pad 3 n = digits3 n.
Proof.
  intro H. apply String.eqb_eq.
  apply (below_spec 1000 _ n pad3_table). lia.
Qed.

Lemma pad2_digits (n : Z) :
  (0 <= n < 100)%Z -> AudioEngine.pad 2 n = digits2 n.
Proof.
  intro H. apply String.eqb_eq.
  apply (below_spec 100 _ n pad2_table). lia.
Qed.

Lemma digit_compare (a b : Z) :
  (0 <= a <= 9)%Z -> (0 <= b <= 9)%Z ->
  Ascii.compare (digit a) (digit b) = (a ?= b)%Z.
Proof.
  intros Ha Hb. unfold Ascii.compare, digit.
  rewrite !N_ascii_embedding by lia.
  rewrite <- N2Z.inj_compare, !N2Z.inj_add, !Z2N.id by lia.
  apply Z.add_compare_mono_l.
Qed.

Lemma digits2_compare (x y : Z) :
  (0 <= x < 100)%Z -> (0 <= y < 100)%Z ->
  String.compare (digits2 x) (digits2 y) = (x ?= y)%Z.
Proof.
  intros Hx Hy. unfold digits2. cbn [String.compare].
  pose proof (Z.div_mod x 10 ltac:(lia)).
  pose proof (Z.div_mod y 10 ltac:(lia)).
  pose proof (Z.mod_pos_bound x 10 ltac:(lia)).
  pose proof (Z.mod_pos_bound y 10 ltac:(lia)).
  assert (0 <= x / 10 <= 9)%Z by lia.
  assert (0 <= y / 10 <= 9)%Z by lia.
  rewrite !digit_compare by lia.
  destruct (Z.compare_spec (x / 10) (y / 10));
    destruct (Z.compare_spec (x mod 10) (y mod 10));
    symmetry;
    first [ apply Z.compare_eq_iff; lia
          | apply Z.compare_lt_iff; lia
          | apply Z.compare_gt_iff; lia ].
Qed.

Lemma digits3_compare (x y : Z) :
  (0 <= x < 1000)%Z -> (0 <= y < 1000)%Z ->
  String.compare (digits3 x) (digits3 y) = (x ?= y)%Z.
Proof.
  intros Hx Hy. unfold digits3. cbn [String.compare].
  pose proof (Z.div_mod x 100 ltac:(lia)).
  pose proof (Z.div_mod y 100 ltac:(lia)).
  pose proof (Z.mod_pos_bound x 100 ltac:(lia)).
  pose proof (Z.mod_pos_bound y 100 ltac:(lia)).
  assert (0 <= x / 100 <= 9)%Z by lia.
  assert (0 <= y / 100 <= 9)%Z by lia.
  rewrite digit_compare, digits2_compare by lia.
  destruct (Z.compare_spec (x / 100) (y / 100));
    destruct (Z.compare_spec (x mod 100) (y mod 100));
    symmetry;
    first [ apply Z.compare_eq_iff; lia
          | apply Z.compare_lt_iff; lia
          | apply Z.compare_gt_iff; lia ].
Qed.

(** Strings that start with fields of the same length compare field by
    field. *)
Lemma compare_app (a b s t : string) :
  String.length a = String.length b ->
  String.compare (a ++ s) (b ++ t)
  = match String.compare a b with
    | Eq => String.compare s t
    | c => c
    end.
Proof.
  revert b. induction a as [ | c1 a IH ]; intros [ | c2 b ] H;
    try discriminate H; cbn [String.append String.compare];
    [ reflexivity | ].
  destruct (Ascii.compare c1 c2); try reflexivity.
  apply IH. injection H as H. exact H.
Qed.

(** The display of a larger triple is not smaller, as a string, as long as
    every field fits its width. *)
Lemma display_le (b1 e1 t1 b2 e2 t2 : Z) :
  (0 <= b1 < 1000)%Z -> (0 <= b2 < 1000)%Z ->
  (0 <= e1 < 100)%Z -> (0 <= e2 < 100)%Z ->
  (0 <= t1 < 1000)%Z -> (0 <= t2 < 1000)%Z ->
  (b1 < b2)%Z
  \/ (b1 = b2 /\ ((e1 < e2)%Z \/ (e1 = e2 /\ (t1 <= t2)%Z))) ->
  String.leb
    (AudioEngine.pad 3 b1 ++ ":" ++ AudioEngine.pad 2 e1 ++ ":"
       ++ AudioEngine.pad 3 t1)
    (AudioEngine.pad 3 b2 ++ ":" ++ AudioEngine.pad 2 e2 ++ ":"
       ++ AudioEngine.pad 3 t2)
  = true.
Proof.
  intros Hb1 Hb2 He1 He2 Ht1 Ht2 Hlex.
  rewrite !pad3_digits, !pad2_digits by assumption.
  unfold String.leb. cbn [String.append].
  rewrite compare_app by reflexivity.
  rewrite digits3_compare by assumption.
  cbn [String.compare]. change (Ascii.compare ":" ":") with Eq. cbv iota.
  rewrite compare_app by reflexivity.
  rewrite digits2_compare by assumption.
  cbn [String.compare]. change (Ascii.compare ":" ":") with Eq. cbv iota.
  rewrite digits3_compare by assumption.
  destruct (Z.compare_spec b1 b2); try reflexivity; [ | lia ].
  destruct (Z.compare_spec e1 e2); try reflexivity; [ | lia ].
  destruct (Z.compare_spec t1 t2); try reflexivity. lia.
Qed.

(** C7, as the code has it: at a tempo in [20, 300] and for
    [0 <= s1 <= s2], with fewer than 2^53 beats at [s2], the display of
    each time is made of the bar, the beat and the tick computed for it in
    double arithmetic, those of [s1] are not larger, in lexicographic
    order, than those of [s2], and the displayed strings are in the same
    order as long as the bar displayed for [s2] is at most 999 and so fits
    the three characters of its field. *)
Theorem formatTime_monotone_within_999_bars :
  forall (e : AudioEngine.t) (bpm s1 s2 : Q),
    AudioEngine.tempo e = JS.Fin bpm ->
    20 <= bpm <= 300 ->
    0 <= s1 ->
    s1 <= s2 ->
    let tb1 := AudioEngine.totalBeats bpm s1 in
    let tb2 := AudioEngine.totalBeats bpm s2 in
    tb2 < 9007199254740992 ->
    AudioEngine.formatTime s1 e
    = (AudioEngine.pad 3 (AudioEngine.bars tb1) ++ ":"
         ++ AudioEngine.pad 2 (AudioEngine.beats tb1) ++ ":"
         ++ AudioEngine.pad 3 (AudioEngine.ticks tb1))%string
    /\ AudioEngine.formatTime s2 e
       = (AudioEngine.pad 3 (AudioEngine.bars tb2) ++ ":"
            ++ AudioEngine.pad 2 (AudioEngine.beats tb2) ++ ":"
            ++ AudioEngine.pad 3 (AudioEngine.ticks tb2))%string
    /\ ((AudioEngine.bars tb1 < AudioEngine.bars tb2)%Z
        \/ (AudioEngine.bars tb1 = AudioEngine.bars tb2
            /\ ((AudioEngine.beats tb1 < AudioEngine.beats tb2)%Z
                \/ (AudioEngine.beats tb1 = AudioEngine.beats tb2
                    /\ (AudioEngine.ticks tb1
                        <= AudioEngine.ticks tb2)%Z))))
    /\ ((AudioEngine.bars tb2 <= 999)%Z ->
        String.leb (AudioEngine.formatTime s1 e) (AudioEngine.formatTime s2 e)
        = true).
Proof.
  intros e bpm s1 s2 Htempo Hbpm Hs1 Hs12 tb1 tb2 Hbig.
  assert (D1 : JS.fl tb1 == tb1) by apply totalBeats_double.
  assert (D2 : JS.fl tb2 == tb2) by apply totalBeats_double.
  assert (H1 : 0 <= tb1) by (apply totalBeats_nonneg; lra).
  assert (H12 : tb1 <= tb2) by (apply totalBeats_mono; lra).
  pose proof (bars_beats_ticks_mono tb1 tb2 D1 D2 H1 H12 Hbig) as Hlex.
  pose proof (formatTime_Fin e bpm s1 Htempo) as F1.
  pose proof (formatTime_Fin e bpm s2 Htempo) as F2.
  cbv zeta in F1, F2. fold tb1 in F1. fold tb2 in F2.
  split; [ exact F1 | ]. split; [ exact F2 | ].
  split; [ exact Hlex | ].
  intro Hbar.
  destruct (bars_beats_ticks_range tb2 D2 ltac:(lra) Hbig Hbar)
    as (_ & Rb2 & Re2 & Rt2).
  assert (Hbar1 : (AudioEngine.bars tb1 <= 999)%Z) by lia.
  destruct (bars_beats_ticks_range tb1 D1 H1 ltac:(lra) Hbar1)
    as (_ & Rb1 & Re1 & Rt1).
  rewrite F1, F2. apply display_le; lia.
Qed.

Lemma formatTime_monotone_within_999_bars_witness :
  String.leb (AudioEngine.formatTime (5 # 4) AudioEngine.constructor)
    (AudioEngine.formatTime 7 AudioEngine.constructor)
  = true.
Proof.
  destruct (formatTime_monotone_within_999_bars AudioEngine.constructor 120
              (5 # 4) 7) as (_ & _ & _ & H).
  - reflexivity.
  - split; vm_compute; discriminate.
  - vm_compute. discriminate.
  - vm_compute. discriminate.
  - vm_compute. reflexivity.
  - apply H. vm_compute. discriminate.
Defined.

(** C7 fails as stated: at tempo 120, second 1996 is displayed as bar 999
    and second 1998 as bar 1000, whose four characters start with a smaller
    one. *)
Lemma formatTime_not_monotone_past_999_bars :
  1996 <= 1998
  /\ AudioEngine.formatTime 1996 AudioEngine.constructor
     = "999:01:000"%string
  /\ AudioEngine.formatTime 1998 AudioEngine.constructor
     = "1000:01:000"%string
  /\ String.leb (AudioEngine.formatTime 1996 AudioEngine.constructor)
       (AudioEngine.formatTime 1998 AudioEngine.constructor)
     = false.
Proof.
  split; [ unfold Qle; simpl; lia | ].
  repeat split; vm_compute; reflexivity.
Qed.

(** * Further properties of the code *)

(** ** AudioClip: position, length and waveform *)



(** [setDuration] never stores less than a tenth of a second.  When the
    buffer holds at least that much after the offset, the stored duration
    stays within the buffer and is the one asked for if that was in range;
    when it holds less (no buffer, or an offset near its end), the tenth of
    a second is stored all the same and the clip overruns its buffer. *)
Theorem setDuration_bounds :
  forall (c : AudioClip.t) (d : Q),
    let room := AudioClip.getOriginalDuration c - AudioClip.offset c in
    let d' := AudioClip.duration (AudioClip.setDuration d c) in
    (1 # 10) <= d'
    /\ ((1 # 10) <= room -> d' <= room)
    /\ ((1 # 10) <= d -> d <= room -> d' == d)
    /\ (room < (1 # 10) -> d' == (1 # 10) /\ room < d').
Proof.
  intros c d room d'. subst d'. unfold AudioClip.setDuration.
  cbn [AudioClip.duration AudioClip.with_duration]. fold room.
  destruct (Q.min_spec room d) as [[H1 E1] | [H1 E1]];
    destruct (Q.max_spec (1 # 10) (Qmin room d)) as [[H2 E2] | [H2 E2]];
    rewrite E2; rewrite ?E1 in *; repeat split; intros; lra.
Qed.

Lemma setDuration_bounds_witness :
  AudioClip.duration (AudioClip.setDuration 2 scenarioClip) == (1 # 10)
  /\ AudioClip.getOriginalDuration scenarioClip
     - AudioClip.offset scenarioClip
     < AudioClip.duration (AudioClip.setDuration 2 scenarioClip).
Proof.
  apply (setDuration_bounds scenarioClip 2). vm_compute. reflexivity.
Defined.

Lemma In_firstn_skipn {A : Type} (x : A) (start count : nat) (l : list A) :
  In x (firstn count (skipn start l)) -> In x l.
Proof.
  intro H.
  rewrite <- (firstn_skipn start l). apply in_or_app. right.
  rewrite <- (firstn_skipn count (skipn start l)). apply in_or_app.
  left. exact H.
Qed.

Section WindowPeak.

Variable channelData : list Q.

Lemma peak_fold_spec (l : list Q) (m0 : Q) :
  let m := fold_left peak_step l m0 in
  m0 <= m
  /\ Forall (fun x => Qabs x <= m) l
  /\ (m = m0 \/ exists x, In x l /\ m = Qabs x).
Proof.
  revert m0. induction l as [ | a r IH ]; intro m0; cbn [fold_left].
  - split; [ lra | ]. split; [ constructor | left; reflexivity ].
  - destruct (IH (peak_step m0 a)) as (Hle & Hall & Hor).
    assert (Hstep : m0 <= peak_step m0 a /\ Qabs a <= peak_step m0 a
                    /\ (peak_step m0 a = m0 \/ peak_step m0 a = Qabs a)).
    { unfold peak_step. destruct (JS.ltb m0 (Qabs a)) eqn:E.
      - apply ltb_true_iff in E. repeat split; try lra. right. reflexivity.
      - apply ltb_false_iff in E. repeat split; try lra. left. reflexivity. }
    destruct Hstep as (H1 & H2 & H3).
    split; [ lra | ]. split.
    + constructor; [ lra | exact Hall ].
    + destruct Hor as [E | (x & Hx & E)].
      * destruct H3 as [E3 | E3].
        -- left. rewrite E, E3. reflexivity.
        -- right. exists a. split; [ left; reflexivity | ].
           rewrite E, E3. reflexivity.
      * right. exists x. split; [ right; exact Hx | exact E ].
Qed.

(** The peak of a window is not below the magnitude of any of its samples,
    and it is 0 or the magnitude of one of them. *)
Lemma window_peak_spec (start stop : nat) :
  let p := AudioClip.window_peak channelData start stop in
  0 <= p
  /\ (forall j, (start <= j < stop)%nat -> (j < List.length channelData)%nat ->
                Qabs (nth j channelData 0) <= p)
  /\ (p = 0 \/ exists x, In x channelData /\ p = Qabs x).
Proof.
  unfold AudioClip.window_peak.
  destruct (peak_fold_spec (firstn (stop - start) (skipn start channelData)) 0)
    as (H0 & Hall & Hor).
  split; [ exact H0 | ]. split.
  - intros j Hj Hlen. rewrite Forall_forall in Hall. apply Hall.
    replace (nth j channelData 0)
      with (nth (j - start)
              (firstn (stop - start) (skipn start channelData)) 0).
    + apply nth_In. rewrite length_firstn, length_skipn. lia.
    + rewrite nth_firstn, nth_skipn.
      replace (j - start <? stop - start)%nat with true
        by (symmetry; apply Nat.ltb_lt; lia).
      f_equal. lia.
  - destruct Hor as [E | (x & Hx & E)]; [ left; exact E | ].
    right. exists x. split; [ eapply In_firstn_skipn; exact Hx | exact E ].
Qed.

End WindowPeak.

Lemma waveform_length (n : nat) (c : AudioClip.t) :
  List.length (fst (AudioClip.generateWaveformData n c)) = n.
Proof.
  unfold AudioClip.generateWaveformData.
  destruct (AudioClip.audioBuffer c); cbn [fst].
  - rewrite length_map, length_seq. reflexivity.
  - apply repeat_length.
Qed.

(** [generateWaveformData n] returns exactly [n] peaks.  With a buffer, peak
    [i] is at least the magnitude of every sample of window [i], the
    [floor (total / n)] samples from [i * floor (total / n)], and it is 0 or
    the magnitude of a sample of the buffer; so the peaks of a silent buffer
    are all 0.  Without a buffer the peaks are all 0. *)
Theorem generateWaveformData_peaks :
  forall (n : nat) (c : AudioClip.t),
    let w := fst (AudioClip.generateWaveformData n c) in
    List.length w = n
    /\ Forall (fun p => 0 <= p) w
    /\ (AudioClip.audioBuffer c = None -> w = repeat 0 n)
    /\ (forall b, AudioClip.audioBuffer c = Some b ->
          let data := AudioBuffer.channelData b in
          let size := (List.length data / n)%nat in
          (forall i j, (i < n)%nat -> (i * size <= j < i * size + size)%nat ->
                       Qabs (nth j data 0) <= nth i w 0)
          /\ Forall (fun p => p = 0 \/ exists x, In x data /\ p = Qabs x) w
          /\ (Forall (fun x => x == 0) data -> Forall (fun p => p == 0) w)).
Proof.
  intros n c w. subst w. unfold AudioClip.generateWaveformData.
  destruct (AudioClip.audioBuffer c) as [b | ]; cbn [fst].
  - set (data := AudioBuffer.channelData b).
    set (size := (List.length data / n)%nat).
    set (f := fun i : nat =>
                AudioClip.window_peak data (i * size)
                  (Nat.min (i * size + size) (List.length data))).
    assert (Hf : forall i, 0 <= f i
                           /\ (f i = 0 \/ exists x, In x data /\ f i = Qabs x)).
    { intro i. subst f.
      destruct (window_peak_spec data (i * size)
                  (Nat.min (i * size + size) (List.length data)))
        as (H0 & _ & Hor).
      split; assumption. }
    split; [ rewrite length_map, length_seq; reflexivity | ].
    split; [ apply Forall_map, Forall_forall; intros i _; apply Hf | ].
    split; [ discriminate | ].
    intros b' Hb. injection Hb as <-. cbv zeta. fold data size.
    split; [ | split ].
    + intros i j Hi Hj.
      assert (n <> 0)%nat as Hn by lia.
      assert (size * n <= List.length data)%nat as Hfit
          by (subst size; rewrite Nat.mul_comm; apply Nat.Div0.mul_div_le).
      assert (i * size + size <= List.length data)%nat as Hend by nia.
      assert (Hnth : nth i (map f (seq 0 n)) 0 = f i).
      { rewrite (nth_indep (map f (seq 0 n)) 0 (f 0%nat))
          by (rewrite length_map, length_seq; exact Hi).
        rewrite map_nth, seq_nth by exact Hi. reflexivity. }
      rewrite Hnth. subst f. cbv beta.
      apply window_peak_spec; lia.
    + apply Forall_map, Forall_forall. intros i _. apply Hf.
    + intro Hsilent. apply Forall_map, Forall_forall. intros i _.
      destruct (Hf i) as (_ & [E | (x & Hx & E)]); rewrite E;
        [ reflexivity | ].
      rewrite Forall_forall in Hsilent. rewrite (Hsilent x Hx). reflexivity.
  - split; [ apply repeat_length | ].
    split; [ | split; [ reflexivity | discriminate ] ].
    apply Forall_forall. intros p Hp. apply repeat_spec in Hp. subst p. lra.
Qed.

Lemma generateWaveformData_peaks_witness :
  fst (AudioClip.generateWaveformData 2 rampClip) = [Qabs (- (5 # 10)); Qabs (3 # 10)]
  /\ Qabs (nth 1 (AudioBuffer.channelData rampBuffer) 0)
     <= nth 0 (fst (AudioClip.generateWaveformData 2 rampClip)) 0.
Proof.
  split; [ reflexivity | ].
  destruct (generateWaveformData_peaks 2 rampClip) as (_ & _ & _ & H).
  destruct (H rampBuffer eq_refl) as (Hwin & _).
  apply (Hwin 0%nat 1%nat); cbn; lia.
Defined.

(** A buffer with fewer samples than the points asked for has windows of
    zero samples: every peak is 0, whatever the audio. *)
Theorem generateWaveformData_short_buffer :
  forall (n : nat) (c : AudioClip.t) (b : AudioBuffer.t),
    AudioClip.audioBuffer c = Some b ->
    (List.length (AudioBuffer.channelData b) < n)%nat ->
    fst (AudioClip.generateWaveformData n c) = repeat 0 n.
Proof.
  intros n c b Hb Hshort. unfold AudioClip.generateWaveformData.
  rewrite Hb. cbn [fst]. rewrite (Nat.div_small _ _ Hshort).
  transitivity (map (fun _ : nat => 0) (seq 0 n));
    [ | rewrite map_const, length_seq; reflexivity ].
  apply map_ext. intro i.
  rewrite Nat.mul_0_r. cbn [plus Nat.min].
  unfold AudioClip.window_peak. cbn [Nat.sub firstn fold_left]. reflexivity.
Qed.

Lemma generateWaveformData_short_buffer_witness :
  fst (AudioClip.generateWaveformData 8 rampClip) = repeat 0 8.
Proof.
  apply (generateWaveformData_short_buffer 8 rampClip rampBuffer).
  - reflexivity.
  - cbn. lia.
Defined.

(** [getWaveformData n] returns [n] values unless a cache of that length is
    there, which it returns as it is; asking again for the same number of
    points returns the same waveform and leaves the clip as the first call
    left it. *)
Theorem getWaveformData_cached :
  forall (n : nat) (c : AudioClip.t),
    let r := AudioClip.getWaveformData n c in
    List.length (fst r) = n
    /\ AudioClip.getWaveformData n (snd r) = r
    /\ (forall w, AudioClip.waveformData c = Some w -> List.length w = n ->
                  r = (w, c)).
Proof.
  intros n c r. subst r.
  assert (Hgen : List.length (fst (AudioClip.generateWaveformData n c)) = n)
    by apply waveform_length.
  assert (Hagain :
            AudioClip.getWaveformData n
              (snd (AudioClip.generateWaveformData n c))
            = AudioClip.generateWaveformData n c
            \/ AudioClip.generateWaveformData n c
               = (repeat 0 n, c)).
  { unfold AudioClip.generateWaveformData in *.
    destruct (AudioClip.audioBuffer c) as [b | ]; [ left | right; reflexivity ].
    cbn [fst snd] in *. unfold AudioClip.getWaveformData.
    cbn [AudioClip.waveformData AudioClip.with_waveformData].
    rewrite Hgen, Nat.eqb_refl. reflexivity. }
  unfold AudioClip.getWaveformData.
  destruct (AudioClip.waveformData c) as [w | ] eqn:Hw.
  - destruct (Nat.eqb (List.length w) n) eqn:E; cbn [negb].
    + apply Nat.eqb_eq in E. cbn [fst snd]. rewrite Hw, E, Nat.eqb_refl.
      cbn [negb]. split; [ reflexivity | ]. split; [ reflexivity | ].
      intros w' Hw' _. injection Hw' as <-. reflexivity.
    + split; [ exact Hgen | ]. split.
      * destruct Hagain as [H | H].
        -- exact H.
        -- rewrite H. cbn [snd]. unfold AudioClip.getWaveformData.
           rewrite Hw, E. cbn [negb]. exact H.
      * intros w' Hw' Hlen. injection Hw' as <-.
        apply Nat.eqb_neq in E. contradiction.
  - split; [ exact Hgen | ]. split.
    + destruct Hagain as [H | H].
      * exact H.
      * rewrite H. cbn [snd]. unfold AudioClip.getWaveformData.
        rewrite Hw. exact H.
    + discriminate.
Qed.

Lemma getWaveformData_cached_witness :
  AudioClip.getWaveformData 2
    (AudioClip.with_waveformData (Some [1; 1]) rampClip)
  = ([1; 1], AudioClip.with_waveformData (Some [1; 1]) rampClip).
Proof.
  destruct (getWaveformData_cached 2
              (AudioClip.with_waveformData (Some [1; 1]) rampClip))
    as (_ & _ & Hhit).
  apply (Hhit [1; 1]); reflexivity.
Defined.

(** ** Track: volume and clip list *)

(** [setVolume] keeps the volume within [0, 1], stores a volume in that
    range as it is, pushes a gain within [0, 1] to a bound sink, and leaves
    the mute and solo flags and the clips alone. *)
Theorem setVolume_range :
  forall (v : Q) (tr : Track.t),
    let tr' := Track.setVolume v tr in
    0 <= Track.volume tr' <= 1
    /\ (0 <= v <= 1 -> Track.volume tr' == v)
    /\ (forall g, sinkGain tr' = Some g -> 0 <= g <= 1)
    /\ Track.muted tr' = Track.muted tr
    /\ Track.solo tr' = Track.solo tr
    /\ Track.clips tr' = Track.clips tr.
Proof.
  intros v tr tr'. subst tr'.
  destruct (setVolume_fields v tr) as (Hs & Hm & Hv).
  destruct (clamp_spec 0 1 v ltac:(lra)) as (Hrange & Hin & _).
  rewrite Hv, Hs, Hm.
  split; [ exact Hrange | ]. split; [ exact Hin | ]. split.
  - intros g Hg. rewrite setVolume_pushes in Hg.
    destruct (Track.gainNode tr); [ | discriminate ].
    cbn [option_map] in Hg. injection Hg as <-.
    destruct (Track.muted tr); lra.
  - repeat split. unfold Track.setVolume, Track.push_gain.
    cbn [Track.gainNode Track.with_volume].
    destruct (Track.gainNode tr); reflexivity.
Qed.

Lemma setVolume_range_witness :
  Track.volume (Track.setVolume (1 # 2) plainTrack) == 1 # 2
  /\ 0 <= Qmax 0 (Qmin 1 (1 # 2)) <= 1.
Proof.
  destruct (setVolume_range (1 # 2) plainTrack) as (_ & Hin & Hsink & _).
  split.
  - apply Hin. split; vm_compute; discriminate.
  - apply (Hsink (Qmax 0 (Qmin 1 (1 # 2)))). reflexivity.
Defined.

Lemma remove_first_split (clipId : string) (l : list AudioClip.t) :
  match find (fun c => String.eqb (AudioClip.id c) clipId) l with
  | None => Track.remove_first clipId l = l
  | Some c =>
      exists l1 l2,
        l = l1 ++ c :: l2
        /\ Track.remove_first clipId l = l1 ++ l2
        /\ Forall (fun x => AudioClip.id x <> clipId) l1
        /\ AudioClip.id c = clipId
  end.
Proof.
  induction l as [ | a r IH ]; cbn [find Track.remove_first];
    [ reflexivity | ].
  destruct (String.eqb (AudioClip.id a) clipId) eqn:E.
  - apply String.eqb_eq in E. exists [], r. repeat split; [ constructor | exact E ].
  - apply String.eqb_neq in E.
    destruct (find (fun c => String.eqb (AudioClip.id c) clipId) r) as [c | ].
    + destruct IH as (l1 & l2 & -> & -> & Hl1 & Hc).
      exists (a :: l1), l2. repeat split; [ constructor; assumption | exact Hc ].
    + rewrite IH. reflexivity.
Qed.

Lemma removeClip_split_or_same (clipId : string) (tr : Track.t) :
  Track.clips (Track.removeClip clipId tr) = Track.clips tr
  \/ exists c l1 l2,
       Track.clips tr = l1 ++ c :: l2
       /\ Track.clips (Track.removeClip clipId tr) = l1 ++ l2.
Proof.
  unfold Track.removeClip. cbn [Track.clips Track.with_clips].
  pose proof (remove_first_split clipId (Track.clips tr)) as H.
  destruct (find (fun c => String.eqb (AudioClip.id c) clipId) (Track.clips tr))
    as [c | ].
  - right. destruct H as (l1 & l2 & E1 & E2 & _). exists c, l1, l2. tauto.
  - left. exact H.
Qed.

(** [removeClip] of an id that no clip of the track has changes nothing;
    otherwise it takes out the first clip with that id, and only that one:
    the clips before and after it keep their places. *)
Theorem removeClip_first_match :
  forall (clipId : string) (tr : Track.t),
    (Track.getClip clipId tr = None -> Track.removeClip clipId tr = tr)
    /\ (forall c, Track.getClip clipId tr = Some c ->
          exists l1 l2,
            Track.clips tr = l1 ++ c :: l2
            /\ Track.clips (Track.removeClip clipId tr) = l1 ++ l2
            /\ Forall (fun x => AudioClip.id x <> clipId) l1
            /\ AudioClip.id c = clipId).
Proof.
  intros clipId tr. unfold Track.getClip, Track.removeClip.
  pose proof (remove_first_split clipId (Track.clips tr)) as H.
  split.
  - intro Hnone. rewrite Hnone in H. rewrite H. destruct tr. reflexivity.
  - intros c Hsome. rewrite Hsome in H. exact H.
Qed.

Lemma removeClip_first_match_witness :
  Track.removeClip "x" plainTrack = plainTrack
  /\ exists l1 l2,
       Track.clips plainTrack = l1 ++ sampleClip "b" 0 0 3 :: l2
       /\ Track.clips (Track.removeClip "b" plainTrack) = l1 ++ l2
       /\ Forall (fun x => AudioClip.id x <> "b"%string) l1
       /\ AudioClip.id (sampleClip "b" 0 0 3) = "b"%string.
Proof.
  split.
  - apply (removeClip_first_match "x" plainTrack). reflexivity.
  - apply (removeClip_first_match "b" plainTrack). reflexivity.
Defined.

Lemma StronglySorted_remove {A : Type} (R : A -> A -> Prop) (l1 l2 : list A)
  (a : A) :
  StronglySorted R (l1 ++ a :: l2) -> StronglySorted R (l1 ++ l2).
Proof.
  induction l1 as [ | b r IH ]; cbn [app]; intro S.
  - apply StronglySorted_inv in S. tauto.
  - apply StronglySorted_inv in S. destruct S as [Sr Hb].
    constructor; [ apply IH; exact Sr | ].
    rewrite Forall_app in *. destruct Hb as [H1 H2].
    apply Forall_inv_tail in H2. tauto.
Qed.

(** Removing a clip keeps a sorted clip list sorted. *)
Theorem removeClip_keeps_sorted :
  forall (clipId : string) (tr : Track.t),
    StronglySorted by_startTime (Track.clips tr) ->
    StronglySorted by_startTime (Track.clips (Track.removeClip clipId tr)).
Proof.
  intros clipId tr S.
  destruct (removeClip_split_or_same clipId tr) as [E | (c & l1 & l2 & E1 & E2)].
  - rewrite E. exact S.
  - rewrite E2. rewrite E1 in S. eapply StronglySorted_remove. exact S.
Qed.

Lemma removeClip_keeps_sorted_witness :
  StronglySorted by_startTime
    (Track.clips (Track.removeClip "m" twoClipTrack)).
Proof.
  apply removeClip_keeps_sorted.
  repeat constructor. vm_compute. discriminate.
Defined.

Section SortAppend.

Variable A : Type.
Variable key : A -> Q.

(** Sorting a sorted list with one more element at its end puts that
    element after every element whose key is not larger, and moves nothing
    else. *)
Lemma Array_sort_snoc (l : list A) (c : A) :
  StronglySorted (le_key key) l ->
  exists l1 l2,
    l = l1 ++ l2
    /\ JS.Array_sort (cmp_key key) (l ++ [c]) = l1 ++ c :: l2
    /\ Forall (fun x => key x <= key c) l1
    /\ Forall (fun x => key c < key x) l2.
Proof.
  induction l as [ | a r IH ]; intro S.
  - exists [], []. repeat split; constructor.
  - apply StronglySorted_inv in S. destruct S as [Sr Ha].
    destruct (IH Sr) as (r1 & r2 & Er & Es & H1 & H2).
    cbn [app JS.Array_sort]. rewrite Es.
    destruct (Qlt_le_dec (key c) (key a)) as [Hlt | Hle].
    + assert (r1 = []) as ->.
      { destruct r1 as [ | b r1 ]; [ reflexivity | exfalso ].
        apply Forall_inv in H1. rewrite Er in Ha. apply Forall_inv in Ha.
        unfold le_key in Ha. lra. }
      cbn [app] in *. subst r2.
      exists [], (a :: r). cbn [app JS.sort_insert].
      assert (E : Qle_bool (cmp_key key a c) 0 = false).
      { apply Qle_bool_false_iff. unfold cmp_key. lra. }
      rewrite E, (sort_insert_head A key a r Ha).
      repeat split; constructor; assumption.
    + exists (a :: r1), r2. cbn [app].
      rewrite sort_insert_head.
      * rewrite Er. repeat split; try assumption. constructor; assumption.
      * rewrite Er in Ha. rewrite Forall_app in *. destruct Ha as [Ha1 Ha2].
        split; [ exact Ha1 | ]. constructor; [ exact Hle | exact Ha2 ].
Qed.

End SortAppend.

(** On a track whose clips are sorted, [addClip] puts the clip after every
    clip that starts no later, before every clip that starts later, with the
    id of the track as its [trackId], and keeps the other clips in their
    order. *)
Theorem addClip_position :
  forall (tr : Track.t) (c : AudioClip.t),
    StronglySorted by_startTime (Track.clips tr) ->
    exists l1 l2,
      Track.clips tr = l1 ++ l2
      /\ Track.clips (Track.addClip c tr)
         = l1 ++ AudioClip.with_trackId (Some (Track.id tr)) c :: l2
      /\ Forall (fun x => AudioClip.startTime x <= AudioClip.startTime c) l1
      /\ Forall (fun x => AudioClip.startTime c < AudioClip.startTime x) l2.
Proof.
  intros tr c S.
  exact (Array_sort_snoc AudioClip.t AudioClip.startTime (Track.clips tr)
           (AudioClip.with_trackId (Some (Track.id tr)) c) S).
Qed.

Lemma addClip_position_witness :
  exists l1 l2,
    Track.clips twoClipTrack = l1 ++ l2
    /\ Track.clips (Track.addClip (sampleClip "n" 2 0 1) twoClipTrack)
       = l1 ++ AudioClip.with_trackId (Some "T"%string) (sampleClip "n" 2 0 1)
            :: l2
    /\ Forall (fun x => AudioClip.startTime x <= 2) l1
    /\ Forall (fun x => 2 < AudioClip.startTime x) l2.
Proof.
  apply (addClip_position twoClipTrack (sampleClip "n" 2 0 1)).
  repeat constructor. vm_compute. discriminate.
Defined.

(** [addClip] and then [getClip] or [removeClip] with the id of the clip,
    when no clip of the track had that id: the clip is found, with the id of
    the track as its [trackId], and on a sorted track removing it gives the
    clip list back. *)
Theorem addClip_then_get_or_remove :
  forall (tr : Track.t) (c : AudioClip.t),
    Track.getClip (AudioClip.id c) tr = None ->
    Track.getClip (AudioClip.id c) (Track.addClip c tr)
    = Some (AudioClip.with_trackId (Some (Track.id tr)) c)
    /\ (StronglySorted by_startTime (Track.clips tr) ->
        Track.clips (Track.removeClip (AudioClip.id c) (Track.addClip c tr))
        = Track.clips tr).
Proof.
  intros tr c Hfresh.
  set (c' := AudioClip.with_trackId (Some (Track.id tr)) c).
  set (p := fun x => String.eqb (AudioClip.id x) (AudioClip.id c)).
  assert (Hnone : forall x, In x (Track.clips tr) -> p x = false)
    by (apply find_none; exact Hfresh).
  assert (Hp : p c' = true) by (apply String.eqb_refl).
  split.
  - unfold Track.getClip. fold p.
    assert (P : Permutation (c' :: Track.clips tr)
                  (Track.clips (Track.addClip c tr))).
    { unfold Track.addClip. fold c'. rewrite sortClips_clips.
      cbn [Track.clips Track.with_clips].
      eapply perm_trans; [ | apply Array_sort_perm ].
      apply Permutation_cons_append. }
    destruct (find p (Track.clips (Track.addClip c tr))) as [x | ] eqn:E.
    + apply find_some in E. destruct E as [Hin Hx].
      apply (Permutation_in _ (Permutation_sym P)) in Hin.
      destruct Hin as [<- | Hin]; [ reflexivity | ].
      rewrite (Hnone x Hin) in Hx. discriminate Hx.
    + exfalso. pose proof (find_none _ _ E c') as H.
      rewrite Hp in H. discriminate H.
      eapply Permutation_in; [ exact P | left; reflexivity ].
  - intro S.
    destruct (Array_sort_snoc AudioClip.t AudioClip.startTime
                (Track.clips tr) c' S) as (l1 & l2 & El & Es & _ & _).
    unfold Track.removeClip, Track.addClip. fold c'.
    rewrite sortClips_clips. cbn [Track.clips Track.with_clips].
    rewrite Es, El.
    assert (Hl1 : forall x, In x l1 -> p x = false).
    { intros x Hx. apply Hnone. rewrite El. apply in_or_app. left. exact Hx. }
    clear - Hl1 Hp. induction l1 as [ | a r IH ]; cbn [app Track.remove_first].
    + fold (p c'). rewrite Hp. reflexivity.
    + fold (p a). rewrite (Hl1 a (or_introl eq_refl)).
      f_equal. apply IH. intros x Hx. apply Hl1. right. exact Hx.
Qed.

Lemma addClip_then_get_or_remove_witness :
  Track.getClip "n" (Track.addClip (sampleClip "n" 2 0 1) twoClipTrack)
  = Some (AudioClip.with_trackId (Some "T"%string) (sampleClip "n" 2 0 1))
  /\ Track.clips
       (Track.removeClip "n"
          (Track.addClip (sampleClip "n" 2 0 1) twoClipTrack))
     = Track.clips twoClipTrack.
Proof.
  destruct (addClip_then_get_or_remove twoClipTrack (sampleClip "n" 2 0 1))
    as [Hget Hremove].
  - reflexivity.
  - split; [ exact Hget | ].
    apply Hremove. repeat constructor. vm_compute. discriminate.
Defined.

Lemma end_fold_spec (l : list AudioClip.t) (m0 : Q) :
  let m := fold_left end_step l m0 in
  m0 <= m
  /\ Forall (fun c => AudioClip.startTime c + AudioClip.duration c <= m) l
  /\ (m = m0
      \/ exists c, In c l
                   /\ m = AudioClip.startTime c + AudioClip.duration c).
Proof.
  revert m0. induction l as [ | a r IH ]; intro m0; cbn [fold_left].
  - split; [ lra | ]. split; [ constructor | left; reflexivity ].
  - destruct (IH (end_step m0 a)) as (Hle & Hall & Hor).
    assert (Hstep :
              m0 <= end_step m0 a
              /\ AudioClip.startTime a + AudioClip.duration a <= end_step m0 a
              /\ (end_step m0 a = m0
                  \/ end_step m0 a
                     = AudioClip.startTime a + AudioClip.duration a)).
    { unfold end_step.
      destruct (JS.ltb m0 (AudioClip.startTime a + AudioClip.duration a))
        eqn:E.
      - apply ltb_true_iff in E. repeat split; try lra. right. reflexivity.
      - apply ltb_false_iff in E. repeat split; try lra. left. reflexivity. }
    destruct Hstep as (H1 & H2 & H3).
    split; [ lra | ]. split.
    + constructor; [ lra | exact Hall ].
    + destruct Hor as [E | (x & Hx & E)].
      * destruct H3 as [E3 | E3].
        -- left. rewrite E, E3. reflexivity.
        -- right. exists a. split; [ left; reflexivity | ].
           rewrite E, E3. reflexivity.
      * right. exists x. split; [ right; exact Hx | exact E ].
Qed.

(** [getDuration] is never negative and never below the end of a clip of
    the track; it is 0 (as on an empty track) or the end of one of the
    clips. *)
Theorem getDuration_is_latest_end :
  forall (tr : Track.t),
    0 <= Track.getDuration tr
    /\ (forall c, In c (Track.clips tr) ->
          AudioClip.startTime c + AudioClip.duration c
          <= Track.getDuration tr)
    /\ (Track.getDuration tr = 0
        \/ exists c, In c (Track.clips tr)
                     /\ Track.getDuration tr
                        = AudioClip.startTime c + AudioClip.duration c)
    /\ (Track.clips tr = [] -> Track.getDuration tr = 0).
Proof.
  intro tr. unfold Track.getDuration.
  destruct (end_fold_spec (Track.clips tr) 0) as (H0 & Hall & Hor).
  split; [ exact H0 | ]. split; [ | split; [ exact Hor | ] ].
  - rewrite Forall_forall in Hall. exact Hall.
  - intros ->. reflexivity.
Qed.

Lemma getDuration_is_latest_end_witness :
  AudioClip.startTime (sampleClip "m" 1 0 1)
  + AudioClip.duration (sampleClip "m" 1 0 1)
  <= Track.getDuration twoClipTrack.
Proof.
  apply (getDuration_is_latest_end twoClipTrack). left. reflexivity.
Defined.

(** ** AudioEngine: the scheduler *)










(** ** AudioEngine: the transport *)

(** After [play()] the transport runs, whatever its state was; a second
    [play()] changes nothing, so playing twice neither moves the position
    nor schedules anything again. *)
Theorem play_twice_is_play_once :
  forall (D1 D2 : Q) (e : AudioEngine.t),
    running (AudioEngine.play D1 e) = true
    /\ AudioEngine.play D2 (AudioEngine.play D1 e) = AudioEngine.play D1 e.
Proof.
  intros D1 D2 e.
  assert (H : running (AudioEngine.play D1 e) = true).
  { destruct e as [ctx mg pl pa st pt tp ct trs src af ot os nt].
    unfold running. destruct pl, pa, ctx, ot, os; reflexivity. }
  split; [ exact H | ].
  unfold running in H. unfold AudioEngine.play at 1. rewrite H. reflexivity.
Qed.

(** [pause()] does nothing unless the transport runs, and leaves a
    transport that does not run; so a second [pause()] changes nothing and
    the paused position is the one of the first. *)
Theorem pause_twice_is_pause_once :
  forall (D1 D2 : Q) (e : AudioEngine.t),
    running (AudioEngine.pause D1 e) = false
    /\ AudioEngine.pause D2 (AudioEngine.pause D1 e) = AudioEngine.pause D1 e
    /\ (running e = false -> AudioEngine.pause D1 e = e).
Proof.
  intros D1 D2 e.
  destruct e as [ctx mg pl pa st pt tp ct trs src af ot os nt].
  unfold running. destruct pl, pa, af, os; repeat split; discriminate.
Qed.

Lemma pause_twice_is_pause_once_witness :
  AudioEngine.pause 9 sampleEngine = sampleEngine.
Proof.
  apply (pause_twice_is_pause_once 9 9 sampleEngine). reflexivity.
Defined.

(** The frame callback of the position loop does nothing once the transport
    is paused or stopped, so a frame that fires late is harmless.  While
    the transport runs it sets [currentTime] to the position, reports it to
    the time callback and touches neither the commands nor the epoch. *)
Theorem late_frame_is_ignored :
  forall (now D : Q) (e : AudioEngine.t),
    AudioEngine.update now (AudioEngine.pause D e) = AudioEngine.pause D e
    /\ AudioEngine.update now (AudioEngine.stop e) = AudioEngine.stop e
    /\ (running e = false -> AudioEngine.update now e = e)
    /\ (running e = true ->
        AudioEngine.currentTime (AudioEngine.update now e) = position now e
        /\ AudioEngine.notified (AudioEngine.update now e)
           = (AudioEngine.notified e
                ++ (if AudioEngine.onTimeUpdate e
                    then [AudioEngine.TimeUpdate (position now e)]
                    else []))%list
        /\ AudioEngine.activeSources (AudioEngine.update now e)
           = AudioEngine.activeSources e
        /\ AudioEngine.startTime (AudioEngine.update now e)
           = AudioEngine.startTime e).
Proof.
  intros now D e.
  assert (Hidle : forall x, running x = false -> AudioEngine.update now x = x).
  { intros x H. unfold running in H. unfold AudioEngine.update.
    destruct (AudioEngine.isPlaying x), (AudioEngine.isPaused x);
      try discriminate H; reflexivity. }
  split.
  { apply Hidle. unfold running.
    destruct e as [ctx mg pl pa st pt tp ct trs src af ot os nt].
    destruct pl, pa, af, os; reflexivity. }
  split.
  { apply Hidle. unfold running.
    destruct e as [ctx mg pl pa st pt tp ct trs src af ot os nt].
    destruct af, ot, os; reflexivity. }
  split; [ apply Hidle | ].
  intro H. unfold running in H. unfold AudioEngine.update, position.
  destruct (AudioEngine.isPlaying e), (AudioEngine.isPaused e);
    try discriminate H.
  cbn [negb orb]. unfold AudioEngine.notifyTime.
  cbn [AudioEngine.currentTime AudioEngine.with_currentTime
       AudioEngine.onTimeUpdate AudioEngine.notified].
  destruct (AudioEngine.onTimeUpdate e);
    rewrite ?app_nil_r; repeat split.
Qed.



Lemma late_frame_is_ignored_witness :
  AudioEngine.update 30 sampleEngine = sampleEngine
  /\ AudioEngine.currentTime
       (AudioEngine.update 30 (AudioEngine.play 5 sampleEngine))
     = position 30 (AudioEngine.play 5 sampleEngine).
Proof.
  split.
  - apply (late_frame_is_ignored 30 0 sampleEngine). reflexivity.
  - apply (late_frame_is_ignored 30 0 (AudioEngine.play 5 sampleEngine)).
    reflexivity.
Defined.

(** ** AudioEngine: master volume and track registry *)

(** The master volume can only be set once the context exists: before
    [init()] the call is dropped, and [init()] then starts at 0.8.  After
    it, the volume is stored clamped to [0, 1] and a later [init()] does
    not reset it. *)
Theorem setMasterVolume_needs_init :
  forall (v : Q) (e : AudioEngine.t),
    (AudioEngine.masterGain e = None -> AudioEngine.setMasterVolume v e = e)
    /\ (AudioEngine.audioContext e = false ->
        AudioEngine.masterGain (AudioEngine.init e) = Some (8 # 10)
        /\ AudioEngine.masterGain
             (AudioEngine.setMasterVolume v (AudioEngine.init e))
           = Some (Qmax 0 (Qmin 1 v))
        /\ AudioEngine.init
             (AudioEngine.setMasterVolume v (AudioEngine.init e))
           = AudioEngine.setMasterVolume v (AudioEngine.init e))
    /\ 0 <= Qmax 0 (Qmin 1 v) <= 1.
Proof.
  intros v e. split; [ | split ].
  - intro H. unfold AudioEngine.setMasterVolume. rewrite H. reflexivity.
  - intro H. unfold AudioEngine.init. rewrite H. repeat split.
  - apply clamp_spec. lra.
Qed.

Lemma setMasterVolume_needs_init_witness :
  AudioEngine.setMasterVolume (1 # 2) AudioEngine.constructor
  = AudioEngine.constructor
  /\ AudioEngine.masterGain
       (AudioEngine.setMasterVolume 3
          (AudioEngine.init AudioEngine.constructor))
     = Some (Qmax 0 (Qmin 1 3)).
Proof.
  split.
  - apply (setMasterVolume_needs_init (1 # 2) AudioEngine.constructor).
    reflexivity.
  - apply (setMasterVolume_needs_init 3 AudioEngine.constructor).
    reflexivity.
Defined.

Lemma find_app_fresh {A : Type} (p : A -> bool) (l : list A) (x : A) :
  find p l = None -> p x = true -> find p (l ++ [x]) = Some x.
Proof.
  intros Hl Hx. induction l as [ | a r IH ]; cbn [app find] in *.
  - rewrite Hx. reflexivity.
  - destruct (p a); [ discriminate Hl | apply IH; exact Hl ].
Qed.

Lemma remove_first_app_fresh (trackId : string) (l : list Track.t)
  (x : Track.t) :
  find (fun y => String.eqb (Track.id y) trackId) l = None ->
  Track.id x = trackId ->
  AudioEngine.remove_first trackId (l ++ [x]) = l.
Proof.
  intros Hl Hx.
  induction l as [ | a r IH ]; cbn [app find AudioEngine.remove_first] in *.
  - rewrite Hx, String.eqb_refl. reflexivity.
  - destruct (String.eqb (Track.id a) trackId); [ discriminate Hl | ].
    rewrite (IH Hl). reflexivity.
Qed.

Lemma remove_first_absent (trackId : string) (l : list Track.t) :
  find (fun y => String.eqb (Track.id y) trackId) l = None ->
  AudioEngine.remove_first trackId l = l.
Proof.
  intro Hl. induction l as [ | a r IH ]; cbn [find AudioEngine.remove_first] in *.
  - reflexivity.
  - destruct (String.eqb (Track.id a) trackId); [ discriminate Hl | ].
    rewrite (IH Hl). reflexivity.
Qed.

(** [removeTrack] of an id that no track has changes nothing.  A track
    added under an id that no track had is found by [getTrack], with a sink
    bound at the volume of the track, and [removeTrack] with that id gives
    back the engine as [init()] leaves it. *)
Theorem addTrack_getTrack_removeTrack :
  forall (tr : Track.t) (trackId : string) (e : AudioEngine.t),
    AudioEngine.getTrack trackId e = None ->
    AudioEngine.removeTrack trackId e = e
    /\ (Track.id tr = trackId ->
        AudioEngine.getTrack trackId (AudioEngine.addTrack tr e)
        = Some (Track.with_gainNode
                  (Some (Track.mkGain (Track.volume tr))) tr)
        /\ AudioEngine.removeTrack trackId (AudioEngine.addTrack tr e)
           = AudioEngine.init e).
Proof.
  intros tr trackId e Hfresh. unfold AudioEngine.getTrack in Hfresh.
  split.
  - unfold AudioEngine.removeTrack.
    rewrite (remove_first_absent _ _ Hfresh). destruct e. reflexivity.
  - intro Hid.
    assert (Hinit : AudioEngine.tracks (AudioEngine.init e)
                    = AudioEngine.tracks e).
    { unfold AudioEngine.init. destruct (AudioEngine.audioContext e);
        reflexivity. }
    unfold AudioEngine.getTrack, AudioEngine.removeTrack, AudioEngine.addTrack.
    cbn [AudioEngine.tracks AudioEngine.with_tracks]. rewrite Hinit.
    split.
    + apply find_app_fresh; [ exact Hfresh | ].
      cbn [Track.id Track.with_gainNode]. rewrite Hid. apply String.eqb_refl.
    + rewrite remove_first_app_fresh; [ | exact Hfresh | exact Hid ].
      rewrite <- Hinit. destruct (AudioEngine.init e). reflexivity.
Qed.

Lemma addTrack_getTrack_removeTrack_witness :
  AudioEngine.removeTrack "B" sampleEngine = sampleEngine
  /\ AudioEngine.getTrack "B" (AudioEngine.addTrack plainTrack sampleEngine)
     = Some (Track.with_gainNode (Some (Track.mkGain (8 # 10))) plainTrack)
  /\ AudioEngine.removeTrack "B"
       (AudioEngine.addTrack plainTrack sampleEngine)
     = AudioEngine.init sampleEngine.
Proof.
  destruct (addTrack_getTrack_removeTrack plainTrack "B" sampleEngine)
    as [Hnoop Hadd].
  - reflexivity.
  - split; [ exact Hnoop | ]. apply Hadd. reflexivity.
Defined.

(** ** AudioEngine: the position display *)

(** At a tempo in [20, 300] and before beat 3996, counted as the code
    counts it in double arithmetic, the display of a time that is not
    negative has exactly the ten characters of BBB:BB:TTT, with a beat from
    1 to 4 and a tick from 0 to 999; the bar and the beat give back the
    whole number of beats counted. *)
Theorem formatTime_fixed_width :
  forall (e : AudioEngine.t) (bpm seconds : Q),
    AudioEngine.tempo e = JS.Fin bpm ->
    20 <= bpm <= 300 ->
    0 <= seconds ->
    let tb := AudioEngine.totalBeats bpm seconds in
    tb < 3996 ->
    AudioEngine.formatTime seconds e
    = (digits3 (AudioEngine.bars tb) ++ ":"
         ++ digits2 (AudioEngine.beats tb) ++ ":"
         ++ digits3 (AudioEngine.ticks tb))%string
    /\ String.length (AudioEngine.formatTime seconds e) = 10%nat
    /\ (1 <= AudioEngine.bars tb <= 999)%Z
    /\ (1 <= AudioEngine.beats tb <= 4)%Z
    /\ (0 <= AudioEngine.ticks tb <= 999)%Z
    /\ (4 * (AudioEngine.bars tb - 1) + (AudioEngine.beats tb - 1)
        = Qfloor tb)%Z.
Proof.
  intros e bpm seconds Htempo Hbpm Hs tb Hhi.
  assert (Hd : JS.fl tb == tb) by apply totalBeats_double.
  assert (H0 : 0 <= tb) by (apply totalBeats_nonneg; lra).
  destruct (bars_beats_ticks_spec tb Hd H0 ltac:(lra)) as (Eb & Ee & _ & Rt).
  destruct (Qfloor_bounds tb) as [Flo Fhi].
  set (F := Qfloor tb) in *.
  assert (HF : (0 <= F <= 3995)%Z).
  { assert (A : inject_Z (-1) < inject_Z F)
      by (change (inject_Z (-1)) with (-1); lra).
    assert (B : inject_Z F < inject_Z 3996)
      by (change (inject_Z 3996) with 3996; lra).
    rewrite <- Zlt_Qlt in A, B. lia. }
  pose proof (Z.div_mod F 4 ltac:(lia)) as Edm.
  pose proof (Z.mod_pos_bound F 4 ltac:(lia)) as Rm.
  assert (Rb : (1 <= AudioEngine.bars tb <= 999)%Z) by (rewrite Eb; lia).
  assert (Re : (1 <= AudioEngine.beats tb <= 4)%Z) by (rewrite Ee; lia).
  assert (Hfmt : AudioEngine.formatTime seconds e
                 = (digits3 (AudioEngine.bars tb) ++ ":"
                      ++ digits2 (AudioEngine.beats tb) ++ ":"
                      ++ digits3 (AudioEngine.ticks tb))%string).
  { rewrite (formatTime_Fin e bpm seconds Htempo). fold tb.
    rewrite !pad3_digits, pad2_digits by lia. reflexivity. }
  split; [ exact Hfmt | ].
  split; [ rewrite Hfmt; reflexivity | ].
  repeat split; try lia.
Qed.

Lemma formatTime_fixed_width_witness :
  String.length (AudioEngine.formatTime 54 tempo130) = 10%nat.
Proof.
  apply (formatTime_fixed_width tempo130 130 54).
  - vm_compute. reflexivity.
  - split; vm_compute; discriminate.
  - vm_compute. discriminate.
  - vm_compute. reflexivity.
Defined.

(** ** TrackList: resolving the mix *)

Lemma handleSoloLogic_tracks (e : AudioEngine.t) :
  AudioEngine.tracks (TrackList.handleSoloLogic e)
  = map (resolveTrack (existsb Track.solo (AudioEngine.tracks e)))
      (AudioEngine.tracks e).
Proof. reflexivity. Qed.

Lemma on_track_tracks (trackId : string) (f : Track.t -> Track.t)
  (e : AudioEngine.t) :
  AudioEngine.tracks (TrackList.on_track trackId f e)
  = map (onId trackId f) (AudioEngine.tracks e).
Proof. reflexivity. Qed.

Lemma existsb_map_ext {A : Type} (p : A -> bool) (f : A -> A) (l : list A) :
  (forall x, p (f x) = p x) -> existsb p (map f l) = existsb p l.
Proof.
  intro H. induction l as [ | a r IH ]; cbn [map existsb]; [ reflexivity | ].
  rewrite H, IH. reflexivity.
Qed.

Lemma resolveTrack_flags (s : bool) (x : Track.t) :
  Track.with_gainNode None (resolveTrack s x) = Track.with_gainNode None x
  /\ Track.solo (resolveTrack s x) = Track.solo x.
Proof.
  unfold resolveTrack, Track.push_gain.
  destruct s, (Track.gainNode x); split; reflexivity.
Qed.

Lemma resolveTrack_twice (s s' : bool) (x : Track.t) :
  resolveTrack s (resolveTrack s' x) = resolveTrack s x.
Proof.
  destruct x as [i n c v p m so cl [g | ]]; destruct s, s', m, so; reflexivity.
Qed.

(** [handleSoloLogic] of [TrackList] pushes to every bound sink the
    effective gain of the mix rule for the current flags, touches nothing
    but the gain nodes, and is idempotent. *)
Theorem handleSoloLogic_resolves_mix :
  forall (e : AudioEngine.t),
    let e' := TrackList.handleSoloLogic e in
    map sinkGain (AudioEngine.tracks e')
    = map (fun tr =>
             option_map
               (fun _ => MixResolver.effectiveGain (AudioEngine.tracks e) tr)
               (Track.gainNode tr))
          (AudioEngine.tracks e)
    /\ map (Track.with_gainNode None) (AudioEngine.tracks e')
       = map (Track.with_gainNode None) (AudioEngine.tracks e)
    /\ AudioEngine.with_tracks (AudioEngine.tracks e) e' = e
    /\ TrackList.handleSoloLogic e' = e'.
Proof.
  intros e e'. subst e'.
  split; [ apply handleSoloLogic_canonical | ].
  split; [ | split ].
  - rewrite handleSoloLogic_tracks, map_map. apply map_ext.
    intro x. apply resolveTrack_flags.
  - destruct e. reflexivity.
  - unfold TrackList.handleSoloLogic at 1.
    fold (resolveTrack
            (existsb Track.solo
               (AudioEngine.tracks (TrackList.handleSoloLogic e)))).
    rewrite handleSoloLogic_tracks.
    rewrite existsb_map_ext by (intro x; apply resolveTrack_flags).
    rewrite map_map.
    rewrite (map_ext _ _ (resolveTrack_twice _ _)).
    unfold TrackList.handleSoloLogic.
    cbn [AudioEngine.with_tracks AudioEngine.tracks AudioEngine.audioContext
         AudioEngine.masterGain AudioEngine.isPlaying AudioEngine.isPaused
         AudioEngine.startTime AudioEngine.pauseTime AudioEngine.tempo
         AudioEngine.currentTime AudioEngine.activeSources
         AudioEngine.animationFrameId AudioEngine.onTimeUpdate
         AudioEngine.onPlayStateChange AudioEngine.notified].
    reflexivity.
Qed.

Lemma toggleSolo_round (trackId : string) (s s' : bool) (x : Track.t) :
  resolveTrack s
    (onId trackId Track.toggleSolo
       (resolveTrack s' (onId trackId Track.toggleSolo x)))
  = resolveTrack s x
  /\ Track.solo
       (onId trackId Track.toggleSolo
          (resolveTrack s' (onId trackId Track.toggleSolo x)))
     = Track.solo x.
Proof.
  destruct x as [i n c v p m so cl [g | ]];
    destruct (String.eqb i trackId) eqn:E; destruct s, s', m, so;
    unfold onId; cbn [Track.id]; rewrite E; cbn; rewrite ?E;
    split; reflexivity.
Qed.

Lemma toggleMute_round (trackId : string) (s s' : bool) (x : Track.t) :
  resolveTrack s
    (onId trackId Track.toggleMute
       (resolveTrack s' (onId trackId Track.toggleMute x)))
  = resolveTrack s x
  /\ Track.solo
       (onId trackId Track.toggleMute
          (resolveTrack s' (onId trackId Track.toggleMute x)))
     = Track.solo x.
Proof.
  destruct x as [i n c v p m so cl [g | ]];
    destruct (String.eqb i trackId) eqn:E; destruct s, s', m, so;
    unfold onId; cbn [Track.id]; rewrite E; cbn; rewrite ?E;
    split; reflexivity.
Qed.

(** Clicking the solo button of a track twice, or its mute button twice,
    brings every track back to its flags, with the gains that
    [handleSoloLogic] gives for them: a solo or a mute leaves no trace once
    it is undone. *)
Theorem solo_or_mute_click_twice :
  forall (trackId : string) (e : AudioEngine.t),
    TrackList.soloClick trackId (TrackList.soloClick trackId e)
    = TrackList.handleSoloLogic e
    /\ TrackList.muteClick trackId (TrackList.muteClick trackId e)
       = TrackList.handleSoloLogic e.
Proof.
  intros trackId e.
  assert (Hwith : forall l1 l2 x,
             l1 = l2 ->
             AudioEngine.with_tracks l1 x = AudioEngine.with_tracks l2 x)
    by (intros; subst; reflexivity).
  split.
  - unfold TrackList.soloClick.
    unfold TrackList.handleSoloLogic at 1.
    fold (resolveTrack
            (existsb Track.solo
               (AudioEngine.tracks
                  (TrackList.on_track trackId Track.toggleSolo
                     (TrackList.handleSoloLogic
                        (TrackList.on_track trackId Track.toggleSolo e)))))).
    rewrite on_track_tracks, handleSoloLogic_tracks, on_track_tracks.
    rewrite !map_map.
    rewrite (existsb_map_ext Track.solo
               (fun x => onId trackId Track.toggleSolo
                           (resolveTrack _ (onId trackId Track.toggleSolo x))))
      by (intro x; exact (proj2 (toggleSolo_round trackId true _ x))).
    rewrite (map_ext _ _ (fun x => proj1 (toggleSolo_round trackId _ _ x))).
    destruct e. reflexivity.
  - unfold TrackList.muteClick.
    unfold TrackList.handleSoloLogic at 1.
    fold (resolveTrack
            (existsb Track.solo
               (AudioEngine.tracks
                  (TrackList.on_track trackId Track.toggleMute
                     (TrackList.handleSoloLogic
                        (TrackList.on_track trackId Track.toggleMute e)))))).
    rewrite on_track_tracks, handleSoloLogic_tracks, on_track_tracks.
    rewrite !map_map.
    rewrite (existsb_map_ext Track.solo
               (fun x => onId trackId Track.toggleMute
                           (resolveTrack _ (onId trackId Track.toggleMute x))))
      by (intro x; exact (proj2 (toggleMute_round trackId true _ x))).
    rewrite (map_ext _ _ (fun x => proj1 (toggleMute_round trackId _ _ x))).
    destruct e. reflexivity.
Qed.

(** ** Timeline: the grid *)

Lemma round_bounds (x : Q) :
  x - (1 # 2) < inject_Z (JS.round x) /\ inject_Z (JS.round x) <= x + (1 # 2).
Proof.
  unfold JS.round. destruct (Qfloor_bounds (x + (1 # 2))) as [H1 H2].
  split; lra.
Qed.

Lemma snapTime_value (tl : Timeline.t) (e : AudioEngine.t) (bpm t : Q) :
  AudioEngine.tempo e = JS.Fin bpm ->
  0 < bpm ->
  0 < Timeline.gridSize tl ->
  let interval := JS.fl (JS.fl (60 / bpm) * Timeline.gridSize tl) in
  0 < interval
  /\ Timeline.snapTime tl e (JS.Fin t)
     = JS.Fin (JS.fl (inject_Z (JS.round (JS.fl (t / interval))) * interval)).
Proof.
  intros Htempo Hbpm Hgrid interval.
  assert (Hi : 0 < interval).
  { subst interval. apply fl_pos_lt.
    apply Qmult_lt_0_compat; [ | exact Hgrid ].
    apply fl_pos_lt, Qlt_shift_div_l; lra. }
  split; [ exact Hi | ].
  apply (snapTime_Fin tl e bpm t Htempo); intro H; lra.
Qed.

(** At a tempo in [20, 300], with a grid fraction of ordinary size and for
    a time of at most 2^100 seconds, [snapTime t] is the double of a whole
    number of grid intervals and lies within half an interval of [t], up
    to the rounding of the three operations: a share of 2^-51 of the time
    and of the interval. *)
Theorem snapTime_within_half_interval :
  forall (tl : Timeline.t) (e : AudioEngine.t) (bpm t : Q),
    AudioEngine.tempo e = JS.Fin bpm ->
    20 <= bpm <= 300 ->
    2 ^ (-900) <= Timeline.gridSize tl <= 2 ^ 900 ->
    Qabs t <= 2 ^ 100 ->
    let interval := JS.fl (JS.fl (60 / bpm) * Timeline.gridSize tl) in
    exists (k : Z) (s : Q),
      Timeline.snapTime tl e (JS.Fin t) = JS.Fin s
      /\ s = JS.fl (inject_Z k * interval)
      /\ Qabs (s - t)
         <= interval / 2 + (Qabs t + interval) * (1 # 2251799813685248).
Proof.
  intros tl e bpm t Htempo Hbpm [Hgrid _] _ interval.
  assert (Hg : 0 < Timeline.gridSize tl).
  { pose proof (pow2_pos (-900)). lra. }
  destruct (snapTime_value tl e bpm t Htempo ltac:(lra) Hg) as [Hi Hs].
  fold interval in Hi, Hs.
  set (q := JS.fl (t / interval)) in *.
  exists (JS.round q). eexists. split; [ exact Hs | ].
  split; [ reflexivity | ].
  destruct (round_bounds q) as [R1 R2].
  set (K := inject_Z (JS.round q)) in *.
  set (x := t / interval) in *.
  assert (Ex : x * interval == t) by (subst x; field; lra).
  pose proof (fl_error x) as Eq. fold q in Eq. rewrite pow2_m53 in Eq.
  pose proof (fl_error (K * interval)) as Er. rewrite pow2_m53 in Er.
  set (r := JS.fl (K * interval)) in *.
  assert (AI : Qabs interval == interval) by (apply Qabs_pos; lra).
  assert (XT : Qabs x * interval == Qabs t).
  { rewrite <- Ex, Qabs_Qmult, AI. reflexivity. }
  pose proof (Qabs_nonneg x) as Nx. pose proof (Qabs_nonneg t) as Nt.
  (* the step count is within a half of the quotient *)
  assert (A : Qabs (K - x) <= (1 # 2) + Qabs x * (1 # 9007199254740992)).
  { setoid_replace (K - x) with ((K - q) + (q - x)) by ring.
    eapply Qle_trans; [ apply Qabs_triangle | ].
    assert (Qabs (K - q) <= 1 # 2)
      by (apply Qabs_Qle_condition; split; lra).
    lra. }
  (* and so the grid point within half an interval of the time *)
  assert (B : Qabs (K * interval - t)
              <= interval / 2 + Qabs t * (1 # 9007199254740992)).
  { setoid_replace (K * interval - t) with ((K - x) * interval)
      by (rewrite <- Ex; ring).
    rewrite Qabs_Qmult, AI.
    setoid_replace (interval / 2 + Qabs t * (1 # 9007199254740992))
      with (((1 # 2) + Qabs x * (1 # 9007199254740992)) * interval)
      by (rewrite <- XT; field).
    apply Qmult_le_compat_r; lra. }
  assert (C : Qabs (K * interval)
              <= Qabs t + interval / 2 + Qabs t * (1 # 9007199254740992)).
  { setoid_replace (K * interval) with (t + (K * interval - t)) by ring.
    eapply Qle_trans; [ apply Qabs_triangle | ]. lra. }
  setoid_replace (r - t) with ((r - K * interval) + (K * interval - t))
    by ring.
  eapply Qle_trans; [ apply Qabs_triangle | ].
  change (interval / 2) with (interval * (1 # 2)) in *.
  set (a := Qabs (r - K * interval)) in *.
  set (b := Qabs (K * interval - t)) in *.
  set (c := Qabs (K * interval)) in *.
  set (T := Qabs t) in *. lra.
Qed.

Lemma snapTime_within_half_interval_witness :
  exists (k : Z) (s : Q),
    Timeline.snapTime Timeline.constructor tempo29 (JS.Fin (15 # 2))
    = JS.Fin s
    /\ s = JS.fl (inject_Z k * JS.fl (JS.fl (60 / 29) * (1 # 4)))
    /\ Qabs (s - (15 # 2))
       <= JS.fl (JS.fl (60 / 29) * (1 # 4)) / 2
          + (Qabs (15 # 2) + JS.fl (JS.fl (60 / 29) * (1 # 4)))
            * (1 # 2251799813685248).
Proof.
  apply (snapTime_within_half_interval Timeline.constructor tempo29 29
           (15 # 2)).
  - vm_compute. reflexivity.
  - split; vm_compute; discriminate.
  - split; vm_compute; discriminate.
  - vm_compute. discriminate.
Defined.



(** ** Toolbar: the tempo never leaves its range *)

(** However the text of the BPM field reads, the change listener of either
    state of the toolbar leaves a tempo that is a number in [20, 300] when
    it was one, and the two states store equal tempos. *)
Theorem toolbar_keeps_tempo_in_range :
  forall (text : string) (e : AudioEngine.t) (bpm : Q),
    AudioEngine.tempo e = JS.Fin bpm ->
    20 <= bpm <= 300 ->
    (exists b, AudioEngine.tempo (Toolbar.bpmChange text e) = JS.Fin b
               /\ 20 <= b <= 300)
    /\ (exists b, AudioEngine.tempo (ToolbarValidated.setBpm text e) = JS.Fin b
                  /\ 20 <= b <= 300)
    /\ JS.num_eq (AudioEngine.tempo (Toolbar.bpmChange text e))
         (AudioEngine.tempo (ToolbarValidated.setBpm text e))
       = true.
Proof.
  intros text e bpm Htempo Hrange.
  unfold Toolbar.bpmChange, ToolbarValidated.setBpm,
    ToolbarValidated.validateAndClampBpm.
  destruct (Toolbar.parseInt text) as [n | ]; cbn [JS.isNaN negb].
  - unfold AudioEngine.setTempo.
    cbn [AudioEngine.tempo AudioEngine.with_tempo JS.Math_max JS.Math_min
         JS.lift2].
    destruct (clamp_spec 20 300 n ltac:(lra)) as (H1 & _).
    destruct (clamp_spec 20 300 (Qmax 20 (Qmin 300 n)) ltac:(lra))
      as (H2 & H3 & _).
    split; [ eexists; split; [ reflexivity | exact H1 ] | ].
    split; [ eexists; split; [ reflexivity | exact H2 ] | ].
    cbn [JS.num_eq]. apply Qeq_bool_iff. symmetry. apply H3. exact H1.
  - rewrite Htempo.
    split; [ exists bpm; split; [ reflexivity | exact Hrange ] | ].
    split; [ exists bpm; split; [ reflexivity | exact Hrange ] | ].
    cbn [JS.num_eq]. apply Qeq_bool_iff. reflexivity.
Qed.

Lemma toolbar_keeps_tempo_in_range_witness :
  JS.num_eq
    (AudioEngine.tempo (Toolbar.bpmChange "999" AudioEngine.constructor))
    (AudioEngine.tempo
       (ToolbarValidated.setBpm "999" AudioEngine.constructor))
  = true.
Proof.
  apply (toolbar_keeps_tempo_in_range "999" AudioEngine.constructor 120).
  - reflexivity.
  - split; vm_compute; discriminate.
Defined.

(** ** Helpers *)

Lemma mapRange_Fin (v inMin inMax outMin outMax : Q) :
  ~ inMin == inMax ->
  Helpers.mapRange v inMin inMax outMin outMax
  = JS.Fin
      (JS.fl
         (JS.fl
            (JS.fl (JS.fl (v - inMin) * JS.fl (outMax - outMin))
             / JS.fl (inMax - inMin))
          + outMin)).
Proof.
  intro Hab. unfold Helpers.mapRange. cbn [JS.sub JS.mul JS.lift2 JS.div].
  rewrite Qeq_bool_false; [ reflexivity | ].
  apply fl_nonzero. intro H. apply Hab. lra.
Qed.

(** Over an input range and an output range that both go upwards, with
    numbers of ordinary size, [mapRange] sends [inMin] to [outMin]
    exactly and keeps the order of values, so it sends no value from
    [inMin] on below [outMin]. *)
Theorem mapRange_monotone_from_outMin :
  forall (v1 v2 inMin inMax outMin outMax : Q),
    inMin < inMax ->
    outMin <= outMax ->
    v1 <= v2 ->
    JS.fl outMin == outMin ->
    moderate v1 /\ moderate v2 /\ moderate inMin /\ moderate inMax
    /\ moderate outMin /\ moderate outMax
    /\ 2 ^ (-300) <= inMax - inMin ->
    exists lo y1 y2 : Q,
      Helpers.mapRange inMin inMin inMax outMin outMax = JS.Fin lo
      /\ Helpers.mapRange v1 inMin inMax outMin outMax = JS.Fin y1
      /\ Helpers.mapRange v2 inMin inMax outMin outMax = JS.Fin y2
      /\ lo == outMin
      /\ y1 <= y2
      /\ (inMin <= v1 -> outMin <= y1).
Proof.
  intros v1 v2 a b c d Hab Hcd H12 Hc _.
  assert (Nab : ~ a == b) by (intro H; lra).
  assert (Pd : 0 < JS.fl (b - a)) by (apply fl_pos_lt; lra).
  assert (Pc : 0 <= JS.fl (d - c)) by (apply fl_nonneg; lra).
  assert (Mono : forall x y, x <= y ->
            JS.fl (JS.fl (JS.fl (JS.fl (x - a) * JS.fl (d - c))
                          / JS.fl (b - a)) + c)
            <= JS.fl (JS.fl (JS.fl (JS.fl (y - a) * JS.fl (d - c))
                             / JS.fl (b - a)) + c)).
  { intros x y Hxy. apply fl_mono, Qplus_le_l, fl_mono.
    unfold Qdiv. apply Qmult_le_compat_r;
      [ | apply Qlt_le_weak, Qinv_lt_0_compat; exact Pd ].
    apply fl_mono. apply Qmult_le_compat_r; [ | exact Pc ].
    apply fl_mono. lra. }
  assert (Lo : JS.fl (JS.fl (JS.fl (JS.fl (a - a) * JS.fl (d - c))
                             / JS.fl (b - a)) + c) == c).
  { assert (Z1 : JS.fl (a - a) == 0) by (apply fl_zero; ring).
    assert (Z2 : JS.fl (JS.fl (a - a) * JS.fl (d - c)) == 0)
      by (apply fl_zero; rewrite Z1; ring).
    assert (Z3 : JS.fl (JS.fl (JS.fl (a - a) * JS.fl (d - c))
                        / JS.fl (b - a)) == 0).
    { apply fl_zero. rewrite Z2. field. lra. }
    rewrite (fl_comp _ c); [ exact Hc | ]. rewrite Z3. ring. }
  rewrite !(mapRange_Fin _ a b c d Nab).
  eexists. eexists. eexists.
  split; [ reflexivity | ]. split; [ reflexivity | ].
  split; [ reflexivity | ].
  split; [ exact Lo | ]. split; [ apply Mono; exact H12 | ].
  intro Hv. pose proof (Mono a v1 Hv) as M. lra.
Qed.

Lemma mapRange_monotone_from_outMin_witness :
  exists lo y1 y2 : Q,
    Helpers.mapRange 0 0 10 0 1 = JS.Fin lo
    /\ Helpers.mapRange 3 0 10 0 1 = JS.Fin y1
    /\ Helpers.mapRange 7 0 10 0 1 = JS.Fin y2
    /\ lo == 0
    /\ y1 <= y2
    /\ (0 <= 3 -> 0 <= y1).
Proof.
  apply (mapRange_monotone_from_outMin 3 7 0 10 0 1);
    try (vm_compute; first [ reflexivity | discriminate ]).
  unfold moderate. repeat split; vm_compute; discriminate.
Defined.

(** The other end is reached up to rounding only: over the input range
    from 0.1 to 0.7 and the output range from 0.2 to 0.9, all four taken as
    doubles, [inMax] goes to 0.8999999999999999, one unit in the last place
    below [outMax]. *)
Example mapRange_inMax_rounded :
  JS.num_eq
    (Helpers.mapRange (JS.fl (7 # 10)) (JS.fl (1 # 10)) (JS.fl (7 # 10))
       (JS.fl (2 # 10)) (JS.fl (9 # 10)))
    (JS.Fin (JS.fl (9 # 10) - (1 # 9007199254740992)))
  = true
  /\ JS.num_eq
       (Helpers.mapRange (JS.fl (7 # 10)) (JS.fl (1 # 10)) (JS.fl (7 # 10))
          (JS.fl (2 # 10)) (JS.fl (9 # 10)))
       (JS.Fin (JS.fl (9 # 10)))
     = false.
Proof. split; vm_compute; reflexivity. Qed.




(** ** The scheduler and the order of the clips *)

Lemma scheduleClip_track_id (now P : Q) (tr tr' : Track.t) (c : AudioClip.t) :
  Track.id tr' = Track.id tr ->
  AudioEngine.scheduleClip now P tr' c = AudioEngine.scheduleClip now P tr c.
Proof.
  intro H. unfold AudioEngine.scheduleClip. rewrite H. reflexivity.
Qed.

(** The commands of a track do not depend on the order of its clips: two
    tracks with the same id and mute flag whose clips are the same up to
    their order get the same commands up to their order.  So a clip list
    left unsorted by a move, which does not sort again, is scheduled like
    the sorted one. *)
Theorem schedule_ignores_clip_order :
  forall (now P : Q) (tr tr' : Track.t),
    Track.id tr' = Track.id tr ->
    Track.muted tr' = Track.muted tr ->
    Permutation (Track.clips tr) (Track.clips tr') ->
    Permutation (AudioEngine.scheduleTrack now P tr)
      (AudioEngine.scheduleTrack now P tr')
    /\ Permutation (AudioEngine.scheduleTrack now P tr)
         (AudioEngine.scheduleTrack now P (Track.sortClips tr)).
Proof.
  intros now P tr tr' Hid Hm Hperm.
  assert (H : forall t1 t2,
             Track.id t2 = Track.id t1 -> Track.muted t2 = Track.muted t1 ->
             Permutation (Track.clips t1) (Track.clips t2) ->
             Permutation (AudioEngine.scheduleTrack now P t1)
               (AudioEngine.scheduleTrack now P t2)).
  { intros t1 t2 Hi Hmu Hp. unfold AudioEngine.scheduleTrack. rewrite Hmu.
    destruct (Track.muted t1); [ apply perm_nil | ].
    rewrite (flat_map_ext _ _
               (fun c => f_equal AudioEngine.option_list
                           (scheduleClip_track_id now P t1 t2 c Hi))).
    apply Permutation_flat_map. exact Hp. }
  split; [ apply H; assumption | ].
  apply H; try reflexivity.
  rewrite sortClips_clips. apply Array_sort_perm.
Qed.

Lemma schedule_ignores_clip_order_witness :
  Permutation
    (AudioEngine.scheduleTrack 0 0 twoClipTrack)
    (AudioEngine.scheduleTrack 0 0
       (Track.with_clips [sampleClip "p" 5 0 1; sampleClip "m" 1 0 1]
          twoClipTrack)).
Proof.
  apply (schedule_ignores_clip_order 0 0 twoClipTrack
           (Track.with_clips [sampleClip "p" 5 0 1; sampleClip "m" 1 0 1]
              twoClipTrack)).
  - reflexivity.
  - reflexivity.
  - apply perm_swap.
Defined.

(** ** TrackList: removing a track *)

(** [removeTrack] of the track panel resolves the mix again for the tracks
    that remain; when none of them is solo, as after removing the only
    solo track, every bound sink that remains gets [muted ? 0 : volume]
    back. *)
Theorem removeTrack_resolves_remaining :
  forall (trackId : string) (e : AudioEngine.t),
    let rest := AudioEngine.remove_first trackId (AudioEngine.tracks e) in
    map sinkGain (AudioEngine.tracks (TrackList.removeTrack trackId e))
    = map (fun tr =>
             option_map (fun _ => MixResolver.effectiveGain rest tr)
               (Track.gainNode tr))
          rest
    /\ (existsb Track.solo rest = false ->
        map sinkGain (AudioEngine.tracks (TrackList.removeTrack trackId e))
        = map (fun tr =>
                 option_map
                   (fun _ => if Track.muted tr then 0 else Track.volume tr)
                   (Track.gainNode tr))
              rest).
Proof.
  intros trackId e rest.
  assert (H : map sinkGain
                (AudioEngine.tracks (TrackList.removeTrack trackId e))
              = map (fun tr =>
                       option_map (fun _ => MixResolver.effectiveGain rest tr)
                         (Track.gainNode tr))
                    rest).
  { unfold TrackList.removeTrack. rewrite handleSoloLogic_canonical.
    reflexivity. }
  split; [ exact H | ].
  intro Hsolo. rewrite H. apply map_ext. intro tr.
  unfold MixResolver.effectiveGain. rewrite Hsolo. reflexivity.
Qed.

Lemma removeTrack_resolves_remaining_witness :
  map sinkGain
    (AudioEngine.tracks
       (TrackList.removeTrack "A"
          (TrackList.handleSoloLogic (engineWith [soloTrack; plainTrack]))))
  = [Some (8 # 10)]
  /\ map sinkGain
       (AudioEngine.tracks
          (TrackList.handleSoloLogic (engineWith [soloTrack; plainTrack])))
     = [Some (8 # 10); Some 0].
Proof.
  split; [ | reflexivity ].
  apply (removeTrack_resolves_remaining "A"
           (TrackList.handleSoloLogic (engineWith [soloTrack; plainTrack]))).
  reflexivity.
Defined.
